(** * ClusterApp dependency block diagram: the graph core of
      [scripts/generate-clusterapp-block-diagram.py]

    The development embeds [get_base_name], [parse_clusterapps], [find_roots]
    and [create_block_diagram] (with its nested [draw_app_block] and its
    breadth-first loop) as Rocq functions and proves the properties the
    specification states about them.

    Conventions of the embedding:
    - a Python [str] is a list of Unicode code points ([pystr]); [len] is
      [length], slicing [s[:n]] is [firstn n];
    - a [dict] is an association list in insertion order, because the parser
      scans [apps.keys()] in that order and stops at the first match;
    - a [set] is a duplicate-free list; the order in which the interpreter
      iterates a set is not fixed by the language, so it is a parameter
      ([set_order]) of every function that iterates one;
    - the [while queue:] loop is driven by fuel, and the fuel handed to it is
      proved sufficient. *)

From Stdlib Require Import String Ascii.
From Stdlib Require Import List NArith Arith Bool Lia Permutation Sorted.
Import ListNotations.
Local Open Scope list_scope.
Local Open Scope nat_scope.

(** ** Python strings *)

Module PyStr.

Definition char := N.
Definition pystr := list char.

Definition str_eq_dec : forall a b : pystr, {a = b} + {a <> b} :=
  list_eq_dec N.eq_dec.

Definition str_eqb (a b : pystr) : bool :=
  if str_eq_dec a b then true else false.

(** Source literals are written as in the script and decoded from UTF-8. *)
Fixpoint utf8_decode (bs : list N) : pystr :=
  match bs with
  | [] => []
  | b0 :: t0 =>
    if (b0 <? 128)%N then b0 :: utf8_decode t0
    else match t0 with
    | [] => []
    | b1 :: t1 =>
      if (b0 <? 224)%N
      then (N.land b0 31 * 64 + N.land b1 63)%N :: utf8_decode t1
      else match t1 with
      | [] => []
      | b2 :: t2 =>
        if (b0 <? 240)%N
        then (N.land b0 15 * 4096 + N.land b1 63 * 64 + N.land b2 63)%N
               :: utf8_decode t2
        else match t2 with
        | [] => []
        | b3 :: t3 =>
          (N.land b0 7 * 262144 + N.land b1 63 * 4096
           + N.land b2 63 * 64 + N.land b3 63)%N :: utf8_decode t3
        end
      end
    end
  end.

Definition lit (s : string) : pystr :=
  utf8_decode (map N_of_ascii (list_ascii_of_string s)).
Arguments lit s%_string.

Definition LF : char := 10%N.
Definition DASH : char := 45%N.
Definition DOT : char := 46%N.
Definition COMMA : char := 44%N.
Definition BAR : char := 124%N.
Definition SPACE : char := 32%N.
(** The box-drawing stroke of the borders and of the rule between sections. *)
Definition HBAR : char := 9472%N.

(** [bool(s)] for a string: non-empty. *)
Definition truthy {A} (s : list A) : bool :=
  match s with [] => false | _ => true end.

(** Code points for which [str.isspace] holds, which [str.strip()] removes. *)
Definition is_space (c : char) : bool :=
  ((9 <=? c) && (c <=? 13) || (28 <=? c) && (c <=? 32)
   || (c =? 133) || (c =? 160) || (c =? 5760)
   || (8192 <=? c) && (c <=? 8202)
   || (c =? 8232) || (c =? 8233) || (c =? 8239) || (c =? 8287)
   || (c =? 12288))%N.

Fixpoint lstrip (s : pystr) : pystr :=
  match s with
  | c :: r => if is_space c then lstrip r else s
  | [] => []
  end.

Definition rstrip (s : pystr) : pystr := rev (lstrip (rev s)).

Definition strip (s : pystr) : pystr := rstrip (lstrip s).

(** [s.split(sep)] with a one-character separator: never empty, keeps empty
    fields. *)
Fixpoint split (sep : char) (s : pystr) : list pystr :=
  match s with
  | [] => [[]]
  | c :: r =>
    if (c =? sep)%N then [] :: split sep r
    else match split sep r with
         | f :: fs => (c :: f) :: fs
         | [] => [[c]]
         end
  end.

(** [sep.join(parts)] *)
Fixpoint join (sep : pystr) (parts : list pystr) : pystr :=
  match parts with
  | [] => []
  | [p] => p
  | p :: ps => p ++ sep ++ join sep ps
  end.

(** [c * n] for a one-character string [c]. *)
Definition times (c : char) (n : nat) : pystr := repeat c n.

(** [str(n)] for a non-negative integer. *)
Fixpoint str_of_uint (u : Decimal.uint) : pystr :=
  match u with
  | Decimal.Nil => []
  | Decimal.D0 u => 48%N :: str_of_uint u
  | Decimal.D1 u => 49%N :: str_of_uint u
  | Decimal.D2 u => 50%N :: str_of_uint u
  | Decimal.D3 u => 51%N :: str_of_uint u
  | Decimal.D4 u => 52%N :: str_of_uint u
  | Decimal.D5 u => 53%N :: str_of_uint u
  | Decimal.D6 u => 54%N :: str_of_uint u
  | Decimal.D7 u => 55%N :: str_of_uint u
  | Decimal.D8 u => 56%N :: str_of_uint u
  | Decimal.D9 u => 57%N :: str_of_uint u
  end.

Definition str_of_nat (n : nat) : pystr := str_of_uint (Nat.to_uint n).

(** Comparison of strings: lexicographic on code points. *)
Fixpoint str_leb (a b : pystr) : bool :=
  match a, b with
  | [], _ => true
  | _ :: _, [] => false
  | x :: a', y :: b' =>
    if (x <? y)%N then true
    else if (x =? y)%N then str_leb a' b' else false
  end.

Definition str_le (a b : pystr) : Prop := str_leb a b = true.

(** [sorted(l)] *)
Fixpoint insert_sorted (x : pystr) (l : list pystr) : list pystr :=
  match l with
  | [] => [x]
  | y :: r => if str_leb x y then x :: l else y :: insert_sorted x r
  end.

Fixpoint sorted (l : list pystr) : list pystr :=
  match l with
  | [] => []
  | x :: r => insert_sorted x (sorted r)
  end.

End PyStr.
Import PyStr.

(** ** Python containers *)

Module PyData.

(** A [set] of strings: a list without duplicates.  The list order is the
    order of insertion and is never observed by the script directly. *)
Definition pyset := list pystr.

Definition mem (x : pystr) (s : list pystr) : bool :=
  if in_dec str_eq_dec x s then true else false.

Definition set_add (x : pystr) (s : pyset) : pyset :=
  if mem x s then s else s ++ [x].

(** [set(l)] *)
Definition set_of_list (l : list pystr) : pyset :=
  fold_left (fun s x => set_add x s) l [].

(** [a - b] *)
Definition set_diff (a b : pyset) : pyset :=
  filter (fun x => negb (mem x b)) a.

(** The order in which the interpreter iterates a set depends on string
    hashing, which changes from one run to the next.  A [set_order] is one
    such choice: any rearrangement of the members. *)
Record set_order : Type := {
  set_iter : pyset -> list pystr;
  set_iter_perm : forall s, Permutation (set_iter s) s
}.

(** A [dict] with string keys, in insertion order. *)
Definition dict (V : Type) := list (pystr * V).

Definition dict_keys {V} (d : dict V) : list pystr := map fst d.

Fixpoint dict_get {V} (d : dict V) (k : pystr) : option V :=
  match d with
  | [] => None
  | (k', v) :: r => if str_eq_dec k' k then Some v else dict_get r k
  end.

(** [d.get(k, default)] *)
Definition dict_get_or {V} (d : dict V) (k : pystr) (default : V) : V :=
  match dict_get d k with Some v => v | None => default end.

(** [d[k] = v]: an existing key keeps its place, a new key goes last. *)
Fixpoint dict_set {V} (d : dict V) (k : pystr) (v : V) : dict V :=
  match d with
  | [] => [(k, v)]
  | (k', v') :: r =>
    if str_eq_dec k' k then (k, v) :: r else (k', v') :: dict_set r k v
  end.

(** [dd[k].add(x)] on a [defaultdict(set)] *)
Definition defaultdict_add (dd : dict pyset) (k x : pystr) : dict pyset :=
  dict_set dd k (set_add x (dict_get_or dd k [])).

End PyData.
Import PyData.

(** ** Name Normalizer: [get_base_name] *)

Module Normalizer.

(** The first code point of each run of ten decimal digits, zero to nine,
    in the Unicode character database (category Nd; version 14.0.0, the one
    of CPython 3.11): ASCII, Arabic-Indic, Devanagari and so on. *)
Definition decimal_blocks : list char :=
  [48; 1632; 1776; 1984; 2406; 2534; 2662; 2790;
   2918; 3046; 3174; 3302; 3430; 3558; 3664; 3792;
   3872; 4160; 4240; 6112; 6160; 6470; 6608; 6784;
   6800; 6992; 7088; 7232; 7248; 42528; 43216; 43264;
   43472; 43504; 43600; 44016; 65296; 66720; 68912; 69734;
   69872; 69942; 70096; 70384; 70736; 70864; 71248; 71360;
   71472; 71904; 72016; 72784; 73040; 73120; 92768; 92864;
   93008; 120782; 120792; 120802; 120812; 120822; 123200; 123632;
   125264; 130032]%N.

(** [\d] of a [str] pattern: any Unicode decimal digit. *)
Definition is_digit (c : char) : bool :=
  existsb (fun zero => ((zero <=? c) && (c <=? zero + 9))%N) decimal_blocks.

(** Greedy [\d*]: the text after the longest run of digits. *)
Fixpoint skip_digits (s : pystr) : pystr :=
  match s with
  | c :: r => if is_digit c then skip_digits r else s
  | [] => []
  end.

(** Greedy [\d+]: fails without a digit.  A shorter run never helps the
    pattern, since the character after it would be a digit where the pattern
    wants a dot, or would be taken by the [.*] that follows. *)
Definition digits1 (s : pystr) : option pystr :=
  match s with
  | c :: r => if is_digit c then Some (skip_digits r) else None
  | [] => None
  end.

(** Greedy [.*]: [.] matches everything but a line feed. *)
Fixpoint skip_line (s : pystr) : pystr :=
  match s with
  | c :: r => if (c =? LF)%N then s else skip_line r
  | [] => []
  end.

(** [$] (without [re.MULTILINE]): at the end of the text, or just before a
    line feed that ends the text. *)
Definition at_dollar (s : pystr) : bool :=
  match s with
  | [] => true
  | [c] => (c =? LF)%N
  | _ => false
  end.

Definition expect (c : char) (s : pystr) : option pystr :=
  match s with
  | c' :: r => if (c' =? c)%N then Some r else None
  | [] => None
  end.

(** A match of [-\d+\.\d+\.\d+.*$] that starts at the head of [s]: the text
    left after the match, if there is one. *)
Definition match_version (s : pystr) : option pystr :=
  match expect DASH s with
  | None => None
  | Some s1 =>
    match digits1 s1 with
    | None => None
    | Some s2 =>
      match expect DOT s2 with
      | None => None
      | Some s3 =>
        match digits1 s3 with
        | None => None
        | Some s4 =>
          match expect DOT s4 with
          | None => None
          | Some s5 =>
            match digits1 s5 with
            | None => None
            | Some s6 =>
              let rest := skip_line s6 in
              if at_dollar rest then Some rest else None
            end
          end
        end
      end
    end
  end.

(** [re.sub(pattern, '', s)]: scan from the left; a match is dropped and the
    scan goes on after it.  What is left after a match is empty or one line
    feed, where the pattern cannot match again. *)
Fixpoint re_sub_version (s : pystr) : pystr :=
  match match_version s with
  | Some rest => rest
  | None =>
    match s with
    | [] => []
    | c :: r => c :: re_sub_version r
    end
  end.

Definition get_base_name (app_name : pystr) : pystr :=
  re_sub_version app_name.

End Normalizer.
Import Normalizer.

(** ** Dependency Parser: [parse_clusterapps] *)

Module Parser.

Definition graph_state : Type := dict (list pystr) * dict pyset.

(** The test of line 56. *)
Definition matches (existing_app dep : pystr) : bool :=
  str_eqb (get_base_name existing_app) dep || str_eqb existing_app dep.

(** Lines 54-58: scan the registered names in order, add [app_name] to the
    dependents of the first one that matches, and stop. *)
Fixpoint link_dep (keys : list pystr) (dependents : dict pyset)
    (app_name dep : pystr) : dict pyset :=
  match keys with
  | [] => dependents
  | existing_app :: rest =>
    if matches existing_app dep
    then defaultdict_add dependents existing_app app_name
    else link_dep rest dependents app_name dep
  end.

(** Line 50: [[d.strip() for d in deps_str.split(',') if d.strip()]] *)
Definition split_deps (deps_str : pystr) : list pystr :=
  map strip (filter (fun d => truthy (strip d)) (split COMMA deps_str)).

(** Lines 47-58. *)
Definition register (st : graph_state) (app_name deps_str : pystr)
    : graph_state :=
  let '(apps, dependents) := st in
  let apps := dict_set apps app_name [] in
  if truthy deps_str && negb (str_eqb deps_str (lit "N/A")) then
    let deps := split_deps deps_str in
    let apps := dict_set apps app_name deps in
    (apps,
     fold_left (fun dependents dep =>
                  link_dep (dict_keys apps) dependents app_name dep)
               deps dependents)
  else (apps, dependents).

(** Lines 36-45: the two fields a line yields, unless the line is skipped. *)
Definition line_fields (line : pystr) : option (pystr * pystr) :=
  let line := strip line in
  if negb (truthy line) then None else
  let parts := split BAR line in
  if length parts <? 2 then None else
  let app_name := strip (nth 0 parts []) in
  let deps_str := if 1 <? length parts then strip (nth 1 parts []) else [] in
  Some (app_name, deps_str).

(** Lines 35-58: one turn of the loop over the lines of the file. *)
Definition parse_line (st : graph_state) (line : pystr) : graph_state :=
  match line_fields line with
  | None => st
  | Some (app_name, deps_str) => register st app_name deps_str
  end.

Definition parse_lines (lines : list pystr) : graph_state :=
  fold_left parse_line lines ([], []).

(** Line 60: [{k: sorted(v) for k, v in dependents.items()}] *)
Definition sort_values (O : set_order) (dependents : dict pyset)
    : dict (list pystr) :=
  map (fun kv => (fst kv, sorted (set_iter O (snd kv)))) dependents.

Definition parse_clusterapps (O : set_order) (lines : list pystr)
    : dict (list pystr) * dict (list pystr) :=
  let '(apps, dependents) := parse_lines lines in
  (apps, sort_values O dependents).

(** Line 65. *)
Definition find_roots (apps : dict (list pystr)) : list pystr :=
  sorted (map fst (filter (fun kv => negb (truthy (snd kv))) apps)).

End Parser.
Import Parser.

(** ** Block Renderer and Diagram Assembler: [create_block_diagram] *)

Module Diagram.

(** Lines 117-120: one line per child, [i] counting from the start. *)
Fixpoint child_lines (i n : nat) (children : list pystr) : list pystr :=
  match children with
  | [] => []
  | child :: rest =>
    let child_display := firstn 55 child in
    let connector :=
      if i <? n - 1 then lit "      ├─" else lit "      └─" in
    (connector ++ lit " " ++ child_display) :: child_lines (S i) n rest
  end.

(** Lines 83-124.  [apps] and [dependents] are the variables of the enclosing
    function.  [" " * k] is empty for a negative [k], which is what the
    truncated subtraction gives. *)
Definition draw_app_block (apps dependents : dict (list pystr))
    (app_name : pystr) : list pystr :=
  let block_lines := [] in
  let deps := dict_get_or apps app_name [] in
  let is_root := length deps =? 0 in
  let children := dict_get_or dependents app_name [] in
  let block_lines :=
    if truthy deps then
      let deps_list := join (lit ", ") (map (firstn 30) deps) in
      block_lines
        ++ [lit "    ┌─ Parents (depends on): " ++ deps_list;
            lit "    │";
            lit "    ▼"]
    else block_lines in
  let app_display := firstn 60 app_name in
  let width := Nat.max (length app_display + 4) 50 in
  let block_lines :=
    if is_root then
      block_lines
        ++ [lit "┌─" ++ times HBAR (width - 4) ++ lit "─┐";
            lit "│ " ++ app_display ++ lit " [ROOT]"
              ++ times SPACE (width - length app_display - 8) ++ lit "│"]
    else
      block_lines
        ++ [lit "┌─" ++ times HBAR (width - 4) ++ lit "─┐";
            lit "│ " ++ app_display
              ++ times SPACE (width - length app_display - 4) ++ lit "│"] in
  let block_lines :=
    block_lines ++ [lit "└─" ++ times HBAR (width - 4) ++ lit "─┘"] in
  if truthy children then
    block_lines
      ++ [lit "    │"; lit "    ▼"; lit "    └─ Children (used by):"]
      ++ child_lines 0 (length children) children
  else
    block_lines ++ [lit "    └─ (no dependents)"].

(** Lines 150-152: children join the queue unless processed or queued. *)
Definition enqueue (processed : pyset) (queue children : list pystr)
    : list pystr :=
  fold_left
    (fun queue child =>
       if negb (mem child processed) && negb (mem child queue)
       then queue ++ [child] else queue)
    children queue.

(** Lines 140-152: the [while queue:] loop; one unit of fuel per [popleft]. *)
Fixpoint bfs_loop (fuel : nat) (dependents : dict (list pystr))
    (queue : list pystr) (processed : pyset) (chain_apps : list pystr)
    : option (list pystr * pyset) :=
  match queue with
  | [] => Some (chain_apps, processed)
  | app :: queue =>
    match fuel with
    | 0 => None
    | S fuel =>
      if mem app processed
      then bfs_loop fuel dependents queue processed chain_apps
      else
        let chain_apps := chain_apps ++ [app] in
        let processed := set_add app processed in
        let children := dict_get_or dependents app [] in
        bfs_loop fuel dependents (enqueue processed queue children)
                 processed chain_apps
    end
  end.

(** Enough [popleft]s for any queue the loop can build from one root. *)
Definition bfs_fuel (dependents : dict (list pystr)) : nat :=
  S (length (concat (map snd dependents))).

(** The variables that live across the turns of the loop over the roots;
    [chains] records the [chain_apps] of each turn. *)
Record assembly : Type := {
  lines : list pystr;
  processed : pyset;
  chains : list (list pystr)
}.

Definition rule : pystr := times HBAR 80.

(** Lines 155-158 and 168-171. *)
Definition draw_all (apps dependents : dict (list pystr))
    (members : list pystr) : list pystr :=
  flat_map (fun app => draw_app_block apps dependents app ++ [[]]) members.

(** Lines 128-158: one turn of the loop over the roots. *)
Definition root_chain (apps dependents : dict (list pystr))
    (st : assembly) (root_idx : nat) (root : pystr) : option assembly :=
  let lines :=
    if 0 <? root_idx then lines st ++ [[]; rule; []] else lines st in
  let lines :=
    lines ++ [lit "### Root Chain " ++ str_of_nat (root_idx + 1)
                ++ lit ": " ++ root; []] in
  match bfs_loop (bfs_fuel dependents) dependents [root] (processed st) []
  with
  | None => None
  | Some (chain_apps, processed) =>
    Some {| lines := lines ++ draw_all apps dependents chain_apps;
            processed := processed;
            chains := chains st ++ [chain_apps] |}
  end.

(** Line 127: [for root_idx, root in enumerate(roots)] *)
Fixpoint root_chains (apps dependents : dict (list pystr))
    (st : assembly) (root_idx : nat) (roots : list pystr)
    : option assembly :=
  match roots with
  | [] => Some st
  | root :: rest =>
    match root_chain apps dependents st root_idx root with
    | None => None
    | Some st => root_chains apps dependents st (S root_idx) rest
    end
  end.

Definition title : list pystr :=
  [lit "# ClusterApp Dependency Block Diagram";
   [];
   lit "This diagram shows each ClusterApp once as a block with its dependencies (parents) and dependents (children).";
   lit "Root nodes (apps with no dependencies) are shown at the top of each chain.";
   [];
   lit "## Block Diagram";
   [];
   lit "```";
   []].

(** Lines 69-158: everything up to the end of the loop over the roots. *)
Definition root_sections (apps dependents : dict (list pystr))
    : option assembly :=
  root_chains apps dependents
    {| lines := title; processed := []; chains := [] |}
    0 (find_roots apps).

(** Line 161, and the order of line 168. *)
Definition remaining (apps : dict (list pystr)) (processed : pyset) : pyset :=
  set_diff (set_of_list (dict_keys apps)) processed.

Definition orphans (O : set_order) (apps : dict (list pystr))
    (processed : pyset) : list pystr :=
  sorted (set_iter O (remaining apps processed)).

(** Lines 67-176. *)
Definition create_block_diagram (O : set_order)
    (apps dependents : dict (list pystr)) : option pystr :=
  match root_sections apps dependents with
  | None => None
  | Some st =>
    let lines :=
      if truthy (remaining apps (processed st)) then
        lines st
          ++ [[]; rule; [];
              lit "### Orphaned Apps (not connected to any root)"; []]
          ++ draw_all apps dependents (orphans O apps (processed st))
      else lines st in
    let lines := lines ++ [lit "```"; []] in
    Some (join [LF] lines)
  end.

(** Chain Traversal on its own: the chains of the root sections, and the
    remainder drawn as orphans. *)
Definition chain_traversal (O : set_order)
    (apps dependents : dict (list pystr))
    : option (list (list pystr) * list pystr) :=
  match root_sections apps dependents with
  | None => None
  | Some st => Some (chains st, orphans O apps (processed st))
  end.

(** Diagram Assembler from the lines of the record file. *)
Definition assemble (O : set_order) (file_lines : list pystr)
    : option pystr :=
  let '(apps, dependents) := parse_clusterapps O file_lines in
  create_block_diagram O apps dependents.

(** Set iteration in insertion order, and in the opposite order. *)
Definition insertion_order : set_order :=
  {| set_iter := fun s => s; set_iter_perm := @Permutation_refl pystr |}.

Definition reverse_order : set_order :=
  {| set_iter := @rev pystr;
     set_iter_perm := fun s => Permutation_sym (Permutation_rev s) |}.

End Diagram.
Import Diagram.


(** ** Vocabulary of the specification *)

Module Spec.

(** A non-empty run of digits. *)
Definition digit_group (d : pystr) : Prop :=
  d <> [] /\ Forall (fun c => is_digit c = true) d.

(** Text that begins with a dash, digits, a dot, digits, a dot and digits,
    followed by anything. *)
Definition version_suffix (s : pystr) : Prop :=
  exists d1 d2 d3 rest,
    digit_group d1 /\ digit_group d2 /\ digit_group d3 /\
    s = DASH :: d1 ++ DOT :: d2 ++ DOT :: d3 ++ rest.

(** No version suffix begins to the left of position [length p]. *)
Definition leftmost (p suf : pystr) : Prop :=
  forall p' suf',
    p ++ suf = p' ++ suf' -> version_suffix suf' -> length p <= length p'.

(** Decision procedures for [version_suffix] and [leftmost]. *)
Definition version_suffixb (s : pystr) : bool :=
  match s with
  | c :: s1 =>
    (c =? DASH)%N &&
    match digits1 s1 with
    | Some (c2 :: s3) =>
      (c2 =? DOT)%N &&
      match digits1 s3 with
      | Some (c4 :: s5) =>
        (c4 =? DOT)%N &&
        match digits1 s5 with Some _ => true | None => false end
      | _ => false
      end
    | _ => false
    end
  | [] => false
  end.

Fixpoint no_version_before (n : nat) (s : pystr) : bool :=
  match n with
  | 0 => true
  | S n' =>
    negb (version_suffixb s) &&
    match s with
    | [] => true
    | _ :: r => no_version_before n' r
    end
  end.

(** An identifier is cut from one line of the record file, so it holds no
    line feed. *)
Definition one_line (s : pystr) : Prop := ~ In LF s.

(** The references a dependency text stands for: none when it is empty or
    the "N/A" marker. *)
Definition references (deps_str : pystr) : list pystr :=
  if truthy deps_str && negb (str_eqb deps_str (lit "N/A"))
  then split_deps deps_str else [].

(** [parent] is the first of [keys], in order, that [dep] matches. *)
Definition first_match (keys : list pystr) (dep parent : pystr) : Prop :=
  exists earlier later,
    keys = earlier ++ parent :: later /\
    Forall (fun k => matches k dep = false) earlier /\
    matches parent dep = true.

(** The identifiers registered once the lines up to and including [line]
    have been read, in registration order. *)
Definition registered (before : list pystr) (line : pystr) : list pystr :=
  dict_keys (fst (parse_lines (before ++ [line]))).

(** The children mapping as the exact inverse of the parents mapping under
    base-name resolution. *)
Definition children_inverse_of_parents
    (apps dependents : dict (list pystr)) : Prop :=
  forall parent child,
    In parent (dict_keys apps) ->
    (In child (dict_get_or dependents parent [])
     <-> exists dep,
           In dep (dict_get_or apps child []) /\ matches parent dep = true).

(** A line with fewer than two fields registered as an identifier without
    dependencies. *)
Definition short_record_registered : Prop :=
  forall O lines line,
    truthy (strip line) = true ->
    length (split BAR (strip line)) < 2 ->
    dict_get (fst (parse_clusterapps O (lines ++ [line]))) (strip line)
    = Some [].

(** Every child listed in [dependents] is a key of [apps]. *)
Definition children_registered (apps dependents : dict (list pystr)) : Prop :=
  forall parent child,
    In child (dict_get_or dependents parent []) -> In child (dict_keys apps).

Definition children_registeredb (apps dependents : dict (list pystr))
    : bool :=
  forallb (fun kv => forallb (fun c => mem c (dict_keys apps)) (snd kv))
          dependents.

(** Chains and remainder split the registered identifiers: each of them
    occurs once, and nothing else occurs. *)
Definition partitions (apps : dict (list pystr))
    (chains : list (list pystr)) (remainder : list pystr) : Prop :=
  NoDup (concat chains ++ remainder) /\
  forall x, In x (concat chains ++ remainder) <-> In x (dict_keys apps).

(** Measure of the breadth-first loop: the children of the identifiers not
    processed yet can still join the queue. *)
Fixpoint pending (dependents : dict (list pystr)) (processed : pyset) : nat :=
  match dependents with
  | [] => 0
  | (k, v) :: r =>
    (if mem k processed then 0 else length v) + pending r processed
  end.

(** What holds between two turns of the loop over the roots: the chains so
    far hold the processed identifiers, once each, all of them in [P]. *)
Definition chains_inv (P : pystr -> Prop) (st : assembly) : Prop :=
  NoDup (concat (chains st)) /\
  (forall x, In x (processed st) <-> In x (concat (chains st))) /\
  (forall x, In x (processed st) -> P x).

(** A line as the iteration over a text file yields it: no line feed but,
    possibly, the one that ends it. *)
Definition file_line (line : pystr) : Prop :=
  exists s, one_line s /\ (line = s \/ line = s ++ [LF]).

End Spec.
Import Spec.

(** ** The record file: lines 208-222 of [main] *)

Module RecordFile.

(** One item of the listing: its name, and its annotations if it has any.
    The values of annotations are strings. *)
Record cluster_app : Type := {
  metadata_name : pystr;
  metadata_annotations : option (dict pystr)
}.

(** [item['metadata'].get('annotations', {}).get(key)] *)
Definition annotation (item : cluster_app) (key : pystr) : option pystr :=
  match metadata_annotations item with
  | Some annotations => dict_get annotations key
  | None => None
  end.

(** [a or b]: [a] unless it is [None] or empty. *)
Definition py_or (a b : option pystr) : option pystr :=
  match a with
  | Some s => if truthy s then a else b
  | None => b
  end.

(** Lines 214-218. *)
Definition dependency_text (item : cluster_app) : pystr :=
  match py_or (py_or (annotation item
                        (lit "apps.kommander.d2iq.io/dependencies"))
                     (annotation item
                        (lit "apps.kommander.d2iq.io/required-dependencies")))
              (Some [])
  with
  | Some deps => deps
  | None => []
  end.

(** Line 219: [f"{app_name}|{deps}\n"] *)
Definition record_line (item : cluster_app) : pystr :=
  metadata_name item ++ lit "|" ++ dependency_text item ++ [LF].

(** Lines 211-219: the text written to the record file. *)
Definition written_file (items : list cluster_app) : pystr :=
  concat (map record_line items).

Definition CR : char := 13%N.

(** Line 35, [for line in f]: the lines of a text, each with the line feed
    that ends it; a carriage return, alone or before a line feed, reads as a
    line feed. *)
Fixpoint readlines (content : pystr) : list pystr :=
  match content with
  | [] => []
  | c :: rest =>
    if (c =? LF)%N then [LF] :: readlines rest
    else if (c =? CR)%N then
      match rest with
      | c' :: rest' =>
        if (c' =? LF)%N then [LF] :: readlines rest'
        else [LF] :: readlines rest
      | [] => [[LF]]
      end
    else
      match readlines rest with
      | line :: more => (c :: line) :: more
      | [] => [[c]]
      end
  end.

(** Lines 211-222: write the records, read them back, parse them. *)
Definition graph_of_items (O : set_order) (items : list cluster_app)
    : dict (list pystr) * dict (list pystr) :=
  parse_clusterapps O (readlines (written_file items)).

(** Text without a line break and without the field separator. *)
Definition plain (s : pystr) : Prop :=
  ~ In LF s /\ ~ In CR s /\ ~ In BAR s.

(** Text without a line break. *)
Definition unbroken (s : pystr) : Prop := ~ In LF s /\ ~ In CR s.

End RecordFile.
Import RecordFile.

(** ** Further vocabulary: the parser and the traversal seen from outside *)

Module Props.

(** The identifiers the lines yield, in file order, repeats included. *)
Definition line_names (file_lines : list pystr) : list pystr :=
  flat_map (fun line => match line_fields line with
                        | Some (app_name, _) => [app_name]
                        | None => []
                        end)
           file_lines.

(** [x] is [root] or depends on it through any number of steps. *)
Inductive reach (dependents : dict (list pystr)) (root : pystr)
    : pystr -> Prop :=
| reach_root : reach dependents root root
| reach_child : forall parent child,
    reach dependents root parent ->
    In child (dict_get_or dependents parent []) ->
    reach dependents root child.

(** Every member but the first is a child of a member before it. *)
Definition led_by_parents (dependents : dict (list pystr))
    (chain : list pystr) : Prop :=
  forall before member after,
    chain = before ++ member :: after -> before <> [] ->
    exists parent,
      In parent before /\ In member (dict_get_or dependents parent []).

(** The chains of a list of roots, given the members [seen] in earlier
    chains: a root met before gets the empty chain; any other root heads its
    chain, in which every later member follows one of its parents. *)
Inductive chains_of (dependents : dict (list pystr))
    : list pystr -> list pystr -> list (list pystr) -> Prop :=
| chains_done : forall seen, chains_of dependents seen [] []
| chains_skip : forall seen root roots chains,
    In root seen ->
    chains_of dependents seen roots chains ->
    chains_of dependents seen (root :: roots) ([] :: chains)
| chains_walk : forall seen root rest roots chains,
    ~ In root seen ->
    led_by_parents dependents (root :: rest) ->
    chains_of dependents (seen ++ root :: rest) roots chains ->
    chains_of dependents seen (root :: roots) ((root :: rest) :: chains).

(** [processed] holds the children of each of its members. *)
Definition closed (dependents : dict (list pystr)) (processed : pyset)
    : Prop :=
  forall x c,
    In x processed -> In c (dict_get_or dependents x []) -> In c processed.

(** The lines of one root section: rule (but for the first), heading, and
    the blocks of the chain. *)
Definition section_lines (apps dependents : dict (list pystr))
    (root_idx : nat) (root : pystr) (chain : list pystr) : list pystr :=
  (if 0 <? root_idx then [[]; rule; []] else [])
    ++ [lit "### Root Chain " ++ str_of_nat (root_idx + 1)
          ++ lit ": " ++ root; []]
    ++ draw_all apps dependents chain.

(** The sections of the roots numbered from [root_idx], with their chains. *)
Fixpoint sections_from (apps dependents : dict (list pystr))
    (root_idx : nat) (roots : list pystr) (chains : list (list pystr))
    : list pystr :=
  match roots, chains with
  | root :: roots', chain :: chains' =>
    section_lines apps dependents root_idx root chain
      ++ sections_from apps dependents (S root_idx) roots' chains'
  | _, _ => []
  end.

(** The section of the orphans, absent when there is none. *)
Definition orphan_section (apps dependents : dict (list pystr))
    (remainder : list pystr) : list pystr :=
  match remainder with
  | [] => []
  | _ =>
    [[]; rule; []; lit "### Orphaned Apps (not connected to any root)"; []]
      ++ draw_all apps dependents remainder
  end.

(** Two sample items of a listing. *)
Definition sample_items : list cluster_app :=
  [{| metadata_name := lit "cert-manager-1.14.2";
      metadata_annotations := None |};
   {| metadata_name := lit "kube-stack";
      metadata_annotations :=
        Some [(lit "apps.kommander.d2iq.io/dependencies", []);
              (lit "apps.kommander.d2iq.io/required-dependencies",
               lit "cert-manager, traefik|x")] |}].

(** What the parser keeps true of [dependents] while it reads: distinct
    keys taken from [K], each with a non-empty set of children. *)
Definition shaped (K : list pystr) (dd : dict pyset) : Prop :=
  NoDup (dict_keys dd) /\
  forall k v, dict_get dd k = Some v -> v <> [] /\ NoDup v /\ In k K.

End Props.
Import Props.

(** * Proofs *)

(** ** Strings and sorting *)

Section StringOrder.

Lemma str_eqb_true (a b : pystr) : str_eqb a b = true <-> a = b.
Proof.
  unfold str_eqb. destruct (str_eq_dec a b); split; congruence.
Qed.

Lemma str_eqb_refl (a : pystr) : str_eqb a a = true.
Proof. now apply str_eqb_true. Qed.

Lemma str_leb_refl (a : pystr) : str_leb a a = true.
Proof.
  induction a as [|x a IH]; simpl; [reflexivity|].
  rewrite N.ltb_irrefl, N.eqb_refl. exact IH.
Qed.

Lemma str_leb_total (a b : pystr) : str_leb a b = false -> str_leb b a = true.
Proof.
  revert b. induction a as [|x a IH]; intros [|y b]; simpl; try congruence.
  destruct (N.ltb_spec x y); [congruence|].
  destruct (N.eqb_spec x y) as [->|Hne].
  - rewrite N.ltb_irrefl, N.eqb_refl. apply IH.
  - intros _. destruct (N.ltb_spec y x); [reflexivity|lia].
Qed.

Lemma str_leb_antisym (a b : pystr) :
  str_leb a b = true -> str_leb b a = true -> a = b.
Proof.
  revert b. induction a as [|x a IH]; intros [|y b]; simpl; try congruence.
  destruct (N.ltb_spec x y), (N.ltb_spec y x); try lia.
  - destruct (N.eqb_spec y x); [lia|discriminate].
  - destruct (N.eqb_spec x y); [lia|discriminate].
  - destruct (N.eqb_spec x y) as [->|]; [|discriminate].
    rewrite N.eqb_refl. intros H1 H2. f_equal. now apply IH.
Qed.

Lemma str_leb_trans (a b c : pystr) :
  str_leb a b = true -> str_leb b c = true -> str_leb a c = true.
Proof.
  revert b c. induction a as [|x a IH]; intros [|y b] [|z c]; simpl;
    try congruence.
  destruct (N.ltb_spec x z); [reflexivity|].
  destruct (N.ltb_spec x y), (N.ltb_spec y z); try lia.
  - destruct (N.eqb_spec y z); [lia|discriminate].
  - destruct (N.eqb_spec x y); [lia|discriminate].
  - destruct (N.eqb_spec x y) as [->|]; [|discriminate].
    destruct (N.eqb_spec y z) as [->|]; [|discriminate].
    apply IH.
Qed.

Ltac order_absurd :=
  match goal with
  | H1 : str_leb ?a ?b = false, H2 : str_leb ?b ?a = false |- _ =>
    apply str_leb_total in H1; congruence
  | H1 : str_leb ?a ?b = true, H2 : str_leb ?b ?c = true,
    H3 : str_leb ?a ?c = false |- _ =>
    rewrite (str_leb_trans _ _ _ H1 H2) in H3; discriminate
  end.

Lemma insert_sorted_swap (x y : pystr) (l : list pystr) :
  insert_sorted x (insert_sorted y l) = insert_sorted y (insert_sorted x l).
Proof.
  induction l as [|z l IH]; simpl.
  - destruct (str_leb x y) eqn:Hxy, (str_leb y x) eqn:Hyx; try reflexivity.
    + now rewrite (str_leb_antisym _ _ Hxy Hyx).
    + order_absurd.
  - destruct (str_leb y z) eqn:Hyz, (str_leb x z) eqn:Hxz; simpl;
      destruct (str_leb x y) eqn:Hxy, (str_leb y x) eqn:Hyx; simpl;
      rewrite ?Hyz, ?Hxz, ?IH; try reflexivity; try order_absurd.
    now rewrite (str_leb_antisym _ _ Hxy Hyx).
Qed.

Lemma sorted_permutation (l l' : list pystr) :
  Permutation l l' -> sorted l = sorted l'.
Proof.
  induction 1; simpl.
  - reflexivity.
  - now rewrite IHPermutation.
  - apply insert_sorted_swap.
  - congruence.
Qed.

Lemma insert_sorted_perm (x : pystr) (l : list pystr) :
  Permutation (insert_sorted x l) (x :: l).
Proof.
  induction l as [|y l IH]; simpl; [reflexivity|].
  destruct (str_leb x y); [reflexivity|].
  rewrite IH. apply perm_swap.
Qed.

Lemma sorted_perm (l : list pystr) : Permutation (sorted l) l.
Proof.
  induction l as [|x l IH]; simpl; [reflexivity|].
  rewrite insert_sorted_perm. now constructor.
Qed.

Lemma sorted_In (l : list pystr) (x : pystr) : In x (sorted l) <-> In x l.
Proof.
  split; apply Permutation_in; [|symmetry]; apply sorted_perm.
Qed.

Lemma insert_sorted_Sorted (x : pystr) (l : list pystr) :
  Sorted str_le l -> Sorted str_le (insert_sorted x l).
Proof.
  induction l as [|y l IH]; simpl; intros Hs.
  - repeat constructor.
  - destruct (str_leb x y) eqn:Hxy.
    + constructor; [assumption|]. now constructor.
    + apply Sorted_inv in Hs. destruct Hs as [Hs Hhd].
      constructor; [now apply IH|].
      destruct l as [|z l]; simpl.
      * constructor. now apply str_leb_total.
      * destruct (str_leb x z); constructor.
        -- now apply str_leb_total.
        -- now inversion Hhd.
Qed.

Lemma sorted_Sorted (l : list pystr) : Sorted str_le (sorted l).
Proof.
  induction l as [|x l IH]; simpl; [constructor|].
  now apply insert_sorted_Sorted.
Qed.

(** The iteration order of a set does not show through [sorted]. *)
Lemma sorted_set_iter (O : set_order) (s : pyset) :
  sorted (set_iter O s) = sorted s.
Proof. apply sorted_permutation, set_iter_perm. Qed.

End StringOrder.

(** ** Name Normalizer *)

Section NormalizerFacts.

Lemma expect_Some (c : char) (s r : pystr) :
  expect c s = Some r <-> s = c :: r.
Proof.
  destruct s as [|c' s]; simpl; [split; discriminate|].
  destruct (N.eqb_spec c' c) as [->|Hne]; split; intros H;
    inversion H; subst; try reflexivity; try discriminate; tauto.
Qed.

Lemma skip_digits_split (s : pystr) :
  exists d, Forall (fun c => is_digit c = true) d /\ s = d ++ skip_digits s.
Proof.
  induction s as [|c s [d [Hd Hs]]]; simpl.
  - exists []. now split.
  - destruct (is_digit c) eqn:Hc.
    + exists (c :: d). split; [now constructor|]. simpl. now f_equal.
    + exists []. now split.
Qed.

Lemma digits1_Some (s r : pystr) :
  digits1 s = Some r -> exists d, digit_group d /\ s = d ++ r.
Proof.
  destruct s as [|c s]; simpl; [discriminate|].
  destruct (is_digit c) eqn:Hc; [|discriminate].
  intros [= <-]. destruct (skip_digits_split s) as [d [Hd Hs]].
  exists (c :: d). repeat split; [discriminate|now constructor|].
  simpl. now f_equal.
Qed.

Lemma skip_digits_stop (d : pystr) (c : char) (x : pystr) :
  Forall (fun c => is_digit c = true) d -> is_digit c = false ->
  skip_digits (d ++ c :: x) = c :: x.
Proof.
  induction 1 as [|c' d Hc' _ IH]; simpl; intros Hc.
  - now rewrite Hc.
  - rewrite Hc'. now apply IH.
Qed.

Lemma digits1_stop (d : pystr) (c : char) (x : pystr) :
  digit_group d -> is_digit c = false ->
  digits1 (d ++ c :: x) = Some (c :: x).
Proof.
  intros [Hne Hd] Hc. destruct d as [|c' d]; [congruence|].
  inversion Hd; subst. simpl. rewrite H1.
  f_equal. now apply skip_digits_stop.
Qed.

Lemma digits1_group (d x : pystr) :
  digit_group d -> exists r, digits1 (d ++ x) = Some r /\ incl r (d ++ x).
Proof.
  intros [Hne Hd]. destruct d as [|c d]; [congruence|].
  inversion Hd; subst. simpl. rewrite H1.
  exists (skip_digits (d ++ x)). split; [reflexivity|].
  destruct (skip_digits_split (d ++ x)) as [d' [_ Hs]].
  intros a Ha. right. rewrite Hs. apply in_or_app. now right.
Qed.

Lemma skip_line_one_line (s : pystr) : one_line s -> skip_line s = [].
Proof.
  unfold one_line. induction s as [|c s IH]; simpl; [reflexivity|].
  intros Hs. destruct (N.eqb_spec c LF) as [->|_]; [tauto|].
  apply IH. tauto.
Qed.

(** The matcher finds only what the specification calls a version suffix. *)
Lemma match_version_sound (s t : pystr) :
  match_version s = Some t -> version_suffix s.
Proof.
  unfold match_version.
  destruct (expect DASH s) as [s1|] eqn:E1; [|discriminate].
  destruct (digits1 s1) as [s2|] eqn:E2; [|discriminate].
  destruct (expect DOT s2) as [s3|] eqn:E3; [|discriminate].
  destruct (digits1 s3) as [s4|] eqn:E4; [|discriminate].
  destruct (expect DOT s4) as [s5|] eqn:E5; [|discriminate].
  destruct (digits1 s5) as [s6|] eqn:E6; [|discriminate].
  intros _.
  apply expect_Some in E1, E3, E5.
  apply digits1_Some in E2, E4, E6.
  destruct E2 as [d1 [G1 ->]], E4 as [d2 [G2 ->]], E6 as [d3 [G3 ->]].
  subst. now exists d1, d2, d3, s6.
Qed.

(** On one line, it finds every one of them and takes the rest of the line. *)
Lemma match_version_complete (s : pystr) :
  version_suffix s -> one_line s -> match_version s = Some [].
Proof.
  intros (d1 & d2 & d3 & rest & G1 & G2 & G3 & ->) Hl.
  unfold match_version. simpl expect. cbv beta iota.
  rewrite (digits1_stop d1 DOT _ G1 eq_refl). simpl expect. cbv beta iota.
  rewrite (digits1_stop d2 DOT _ G2 eq_refl). simpl expect. cbv beta iota.
  destruct (digits1_group d3 rest G3) as [r [-> Hr]]. cbv beta iota zeta.
  rewrite skip_line_one_line; [reflexivity|].
  intros Hin. apply Hl. right.
  apply in_or_app. right. right. apply in_or_app. right. right. now apply Hr.
Qed.

Lemma version_suffixb_true (s : pystr) :
  version_suffix s -> version_suffixb s = true.
Proof.
  intros (d1 & d2 & d3 & rest & G1 & G2 & G3 & ->).
  simpl. rewrite (digits1_stop d1 DOT _ G1 eq_refl).
  rewrite (digits1_stop d2 DOT _ G2 eq_refl).
  now destruct (digits1_group d3 rest G3) as [r [-> _]].
Qed.

Lemma no_version_before_leftmost (p suf : pystr) :
  no_version_before (length p) (p ++ suf) = true -> leftmost p suf.
Proof.
  unfold leftmost. induction p as [|c p IH]; simpl; intros Hn p' suf' E Hv.
  - lia.
  - apply andb_prop in Hn. destruct Hn as [Hn1 Hn2].
    destruct p' as [|c' p']; simpl in E.
    + subst suf'. apply version_suffixb_true in Hv.
      simpl in Hn1. simpl in Hv. rewrite Hv in Hn1. discriminate.
    + injection E as -> E. simpl. apply le_n_S. now apply (IH Hn2 p' suf').
Qed.

Lemma leftmost_tail (c : char) (p suf : pystr) :
  leftmost (c :: p) suf -> leftmost p suf.
Proof.
  intros H p' suf' E Hv.
  specialize (H (c :: p') suf'). simpl in H.
  rewrite E in H. specialize (H eq_refl Hv). lia.
Qed.

Lemma get_base_name_strips (p suf : pystr) :
  version_suffix suf -> one_line suf -> leftmost p suf ->
  get_base_name (p ++ suf) = p.
Proof.
  intros Hv Hl. unfold get_base_name.
  induction p as [|c p IH]; intros Hm.
  - simpl app. destruct suf as [|c suf].
    + destruct Hv as (? & ? & ? & ? & _ & _ & _ & ?). discriminate.
    + simpl. now rewrite (match_version_complete _ Hv Hl).
  - simpl. destruct (match_version (c :: p ++ suf)) as [t|] eqn:E.
    + apply match_version_sound in E.
      specialize (Hm [] (c :: p ++ suf) eq_refl E). simpl in Hm. lia.
    + f_equal. apply IH. now apply leftmost_tail in Hm.
Qed.

Lemma get_base_name_identity (s : pystr) :
  (forall p suf, s = p ++ suf -> ~ version_suffix suf) ->
  get_base_name s = s.
Proof.
  unfold get_base_name. induction s as [|c s IH]; intros Hn.
  - simpl. destruct (match_version []) eqn:E; [|reflexivity].
    now apply match_version_sound, (Hn [] []) in E.
  - simpl. destruct (match_version (c :: s)) as [t|] eqn:E.
    + now apply match_version_sound, (Hn [] (c :: s)) in E.
    + f_equal. apply IH. intros p suf ->. now apply (Hn (c :: p) suf).
Qed.

End NormalizerFacts.

(** C4.  [get_base_name] removes a suffix made of a dash, digits, a dot,
    digits, a dot and digits followed by any further characters of the
    identifier's line; where several positions begin such a suffix, the cut
    is at the leftmost; on an identifier that holds no such suffix it is the
    identity; and it maps "cert-manager-1.14.2" and "cert-manager" both to
    "cert-manager".  Digits are the decimal digits of Unicode, as for [\d]
    in the script, so "app-١.٢.٣" has the base name "app".  The suffix is on
    one line, as every identifier the parser registers is
    ([registered_one_line]): the [.] of the pattern stops at a line feed. *)
Theorem get_base_name_spec :
  (forall p suf,
     version_suffix suf -> one_line suf -> leftmost p suf ->
     get_base_name (p ++ suf) = p) /\
  (forall s,
     (forall p suf, s = p ++ suf -> ~ version_suffix suf) ->
     get_base_name s = s) /\
  get_base_name (lit "cert-manager-1.14.2") = lit "cert-manager" /\
  get_base_name (lit "cert-manager") = lit "cert-manager" /\
  get_base_name (lit "app-١.٢.٣") = lit "app".
Proof.
  split; [exact get_base_name_strips|].
  split; [exact get_base_name_identity|].
  repeat split; reflexivity.
Qed.

Lemma get_base_name_spec_witness :
  get_base_name (lit "kube-1.2-prometheus-stack-70.4.2-rc1-0.0.1")
  = lit "kube-1.2-prometheus-stack".
Proof.
  apply (proj1 get_base_name_spec
           (lit "kube-1.2-prometheus-stack") (lit "-70.4.2-rc1-0.0.1")).
  - exists (lit "70"), (lit "4"), (lit "2"), (lit "-rc1-0.0.1").
    repeat split; try discriminate; repeat constructor.
  - unfold one_line. vm_compute. intuition discriminate.
  - apply no_version_before_leftmost. vm_compute. reflexivity.
Defined.

(** ** Sets and dictionaries *)

Section Containers.

Lemma mem_true (x : pystr) (s : list pystr) : mem x s = true <-> In x s.
Proof. unfold mem. destruct (in_dec str_eq_dec x s); split; easy. Qed.

Lemma mem_false (x : pystr) (s : list pystr) : mem x s = false <-> ~ In x s.
Proof. unfold mem. destruct (in_dec str_eq_dec x s); split; easy. Qed.

Lemma set_add_In (x y : pystr) (s : pyset) :
  In y (set_add x s) <-> y = x \/ In y s.
Proof.
  unfold set_add. destruct (mem x s) eqn:E.
  - apply mem_true in E. split; [tauto|]. intros [->|H]; assumption.
  - rewrite in_app_iff. simpl. intuition.
Qed.

Lemma set_add_NoDup (x : pystr) (s : pyset) :
  NoDup s -> NoDup (set_add x s).
Proof.
  unfold set_add. destruct (mem x s) eqn:E; [easy|].
  apply mem_false in E. intros Hs.
  apply NoDup_rev in Hs. apply (NoDup_cons x) in Hs.
  - apply NoDup_rev in Hs. simpl in Hs. now rewrite rev_involutive in Hs.
  - now rewrite <- in_rev.
Qed.

Lemma set_of_list_spec (l : list pystr) :
  NoDup (set_of_list l) /\ forall x, In x (set_of_list l) <-> In x l.
Proof.
  unfold set_of_list.
  assert (G : forall s, NoDup s ->
            NoDup (fold_left (fun s x => set_add x s) l s) /\
            forall x, In x (fold_left (fun s x => set_add x s) l s)
                      <-> In x s \/ In x l).
  { induction l as [|a l IH]; simpl; intros s Hs.
    - split; [assumption|]. tauto.
    - destruct (IH (set_add a s) (set_add_NoDup a s Hs)) as [H1 H2].
      split; [assumption|]. intros x. rewrite H2, set_add_In.
      intuition. }
  destruct (G [] (NoDup_nil _)) as [H1 H2].
  split; [assumption|]. intros x. rewrite H2. simpl. tauto.
Qed.

Lemma set_diff_In (a b : pyset) (x : pystr) :
  In x (set_diff a b) <-> In x a /\ ~ In x b.
Proof.
  unfold set_diff. rewrite filter_In, negb_true_iff, mem_false. tauto.
Qed.

Context {V : Type}.

Lemma dict_get_set_same (d : dict V) (k : pystr) (v : V) :
  dict_get (dict_set d k v) k = Some v.
Proof.
  induction d as [|[k' v'] d IH]; simpl.
  - now destruct (str_eq_dec k k).
  - destruct (str_eq_dec k' k) as [->|Hne]; simpl.
    + now destruct (str_eq_dec k k).
    + now destruct (str_eq_dec k' k).
Qed.

Lemma dict_get_set_other (d : dict V) (k k' : pystr) (v : V) :
  k' <> k -> dict_get (dict_set d k v) k' = dict_get d k'.
Proof.
  intros Hne. induction d as [|[k0 v0] d IH]; simpl.
  - destruct (str_eq_dec k k'); [congruence|reflexivity].
  - destruct (str_eq_dec k0 k) as [->|Hk]; simpl.
    + destruct (str_eq_dec k k'); [congruence|reflexivity].
    + destruct (str_eq_dec k0 k'); [reflexivity|exact IH].
Qed.

Lemma dict_keys_set (d : dict V) (k : pystr) (v : V) :
  dict_keys (dict_set d k v)
  = if mem k (dict_keys d) then dict_keys d else dict_keys d ++ [k].
Proof.
  unfold dict_keys. induction d as [|[k' v'] d IH]; simpl; [reflexivity|].
  destruct (str_eq_dec k' k) as [->|Hne]; simpl.
  - unfold mem. destruct (in_dec _ _ _) as [_|n]; [reflexivity|].
    exfalso. apply n. now left.
  - rewrite IH. unfold mem.
    destruct (in_dec str_eq_dec k (map fst d)) as [i|n];
      destruct (in_dec str_eq_dec k (k' :: map fst d)) as [i'|n'];
      try reflexivity.
    + exfalso. apply n'. now right.
    + destruct i' as [E|i']; [congruence|contradiction].
Qed.

Lemma dict_keys_set_In (d : dict V) (k x : pystr) (v : V) :
  In x (dict_keys (dict_set d k v)) <-> x = k \/ In x (dict_keys d).
Proof.
  rewrite dict_keys_set. destruct (mem k (dict_keys d)) eqn:E.
  - apply mem_true in E. split; [tauto|]. intros [->|H]; assumption.
  - rewrite in_app_iff. simpl. intuition.
Qed.

Lemma dict_keys_set_NoDup (d : dict V) (k : pystr) (v : V) :
  NoDup (dict_keys d) -> NoDup (dict_keys (dict_set d k v)).
Proof.
  rewrite dict_keys_set. destruct (mem k (dict_keys d)) eqn:E; [easy|].
  apply mem_false in E. intros Hs.
  apply NoDup_rev in Hs. apply (NoDup_cons k) in Hs.
  - apply NoDup_rev in Hs. simpl in Hs. now rewrite rev_involutive in Hs.
  - now rewrite <- in_rev.
Qed.

Lemma dict_get_In (d : dict V) (k : pystr) (v : V) :
  dict_get d k = Some v -> In (k, v) d.
Proof.
  induction d as [|[k' v'] d IH]; simpl; [discriminate|].
  destruct (str_eq_dec k' k) as [->|Hne].
  - intros [= ->]. now left.
  - intros H. right. now apply IH.
Qed.

Lemma dict_get_None (d : dict V) (k : pystr) :
  dict_get d k = None <-> ~ In k (dict_keys d).
Proof.
  unfold dict_keys. induction d as [|[k' v'] d IH]; simpl; [tauto|].
  destruct (str_eq_dec k' k) as [->|Hne].
  - split; [discriminate|]. intros H. exfalso. apply H. now left.
  - rewrite IH. tauto.
Qed.

End Containers.

(** Children of [parent] as the parser holds them, before and after line 60. *)
Lemma defaultdict_add_get (dd : dict pyset) (k x parent child : pystr) :
  In child (dict_get_or (defaultdict_add dd k x) parent [])
  <-> In child (dict_get_or dd parent []) \/ (parent = k /\ child = x).
Proof.
  unfold defaultdict_add, dict_get_or.
  destruct (str_eq_dec parent k) as [->|Hne].
  - rewrite dict_get_set_same, set_add_In. tauto.
  - rewrite dict_get_set_other by assumption. tauto.
Qed.

Lemma sort_values_get (O : set_order) (dd : dict pyset) (k : pystr) :
  dict_get_or (sort_values O dd) k [] = sorted (dict_get_or dd k []).
Proof.
  unfold dict_get_or, sort_values.
  induction dd as [|[k' v] dd IH]; simpl; [reflexivity|].
  destruct (str_eq_dec k' k); [apply sorted_set_iter|exact IH].
Qed.

(** ** Dependency Parser *)

Section ParserFacts.

Lemma first_match_nil (dep parent : pystr) : ~ first_match [] dep parent.
Proof. intros ([|? ?] & ? & E & _); discriminate. Qed.

Lemma first_match_here (k : pystr) (keys : list pystr) (dep parent : pystr) :
  matches k dep = true -> (first_match (k :: keys) dep parent <-> parent = k).
Proof.
  intros Hk. split.
  - intros ([|k' earlier] & later & E & Hn & _).
    + now injection E.
    + injection E as <- _. inversion Hn; congruence.
  - intros ->. exists [], keys. repeat split; [constructor|assumption].
Qed.

Lemma first_match_later (k : pystr) (keys : list pystr) (dep parent : pystr) :
  matches k dep = false ->
  (first_match (k :: keys) dep parent <-> first_match keys dep parent).
Proof.
  intros Hk. split.
  - intros ([|k' earlier] & later & E & Hn & Hp).
    + injection E as <- _. congruence.
    + injection E as <- E. inversion Hn; subst.
      now exists earlier, later.
  - intros (earlier & later & -> & Hn & Hp).
    exists (k :: earlier), later. repeat split; [constructor|]; assumption.
Qed.

(** One reference adds one edge, to the first name it matches. *)
Lemma link_dep_get (keys : list pystr) (dependents : dict pyset)
    (app_name dep parent child : pystr) :
  In child (dict_get_or (link_dep keys dependents app_name dep) parent [])
  <-> In child (dict_get_or dependents parent [])
      \/ (first_match keys dep parent /\ child = app_name).
Proof.
  induction keys as [|k keys IH]; simpl.
  - pose proof (first_match_nil dep parent). tauto.
  - destruct (matches k dep) eqn:Hk.
    + rewrite defaultdict_add_get, (first_match_here _ _ _ _ Hk). tauto.
    + rewrite IH, (first_match_later _ _ _ _ Hk). tauto.
Qed.

Lemma link_deps_get (keys : list pystr) (deps : list pystr)
    (dependents : dict pyset) (app_name parent child : pystr) :
  In child
     (dict_get_or
        (fold_left (fun dd dep => link_dep keys dd app_name dep)
                   deps dependents) parent [])
  <-> In child (dict_get_or dependents parent [])
      \/ ((exists dep, In dep deps /\ first_match keys dep parent)
          /\ child = app_name).
Proof.
  revert dependents. induction deps as [|d deps IH]; simpl; intros dd.
  - split; [tauto|]. intros [H|[[dep [[] _]] _]]. exact H.
  - rewrite IH, link_dep_get. split.
    + intros [[H|[H ->]]|[[dep [H1 H2]] ->]]; eauto 8.
    + intros [H|[[dep [[->|H1] H2]] ->]]; eauto 8.
Qed.

Lemma dict_set_twice {V} (d : dict V) (k : pystr) (v w : V) :
  dict_set (dict_set d k v) k w = dict_set d k w.
Proof.
  induction d as [|[k' v'] d IH]; simpl.
  - now destruct (str_eq_dec k k).
  - destruct (str_eq_dec k' k) as [->|Hne]; simpl.
    + now destruct (str_eq_dec k k).
    + destruct (str_eq_dec k' k); [contradiction|]. now rewrite IH.
Qed.

(** Lines 47-58 in one equation. *)
Lemma register_eq (apps : dict (list pystr)) (dependents : dict pyset)
    (app_name deps_str : pystr) :
  register (apps, dependents) app_name deps_str
  = (dict_set apps app_name (references deps_str),
     fold_left
       (fun dd dep =>
          link_dep (dict_keys (dict_set apps app_name (references deps_str)))
                   dd app_name dep)
       (references deps_str) dependents).
Proof.
  unfold register, references.
  destruct (truthy deps_str && negb (str_eqb deps_str (lit "N/A"))).
  - now rewrite dict_set_twice.
  - reflexivity.
Qed.

Lemma parse_lines_snoc (lines : list pystr) (line : pystr) :
  parse_lines (lines ++ [line]) = parse_line (parse_lines lines) line.
Proof. unfold parse_lines. now rewrite fold_left_app. Qed.

End ParserFacts.

Lemma defaultdict_add_same (dd : dict pyset) (k x : pystr) :
  dict_get_or (defaultdict_add dd k x) k []
  = set_add x (dict_get_or dd k []).
Proof.
  unfold defaultdict_add. unfold dict_get_or at 1.
  now rewrite dict_get_set_same.
Qed.

Lemma defaultdict_add_other (dd : dict pyset) (k x other : pystr) :
  other <> k ->
  dict_get_or (defaultdict_add dd k x) other [] = dict_get_or dd other [].
Proof.
  intros Hne. unfold defaultdict_add, dict_get_or.
  now rewrite dict_get_set_other.
Qed.

(** C3.  One dependency reference forms at most one edge.  If [parent] is the
    first registered identifier, in registration order, that the reference
    matches, the current identifier is added to the children of [parent],
    which keep the members they had, and the children of every other
    identifier, later matching candidates included, stay as they were; if no
    registered identifier matches, nothing changes.  With "foo-1.0.0" and
    "foo-2.0.0" registered in that order, the reference "foo" of "x" reaches
    only "foo-1.0.0"; a version written in other decimal digits is a version
    too. *)
Theorem link_dep_first_match_only :
  (forall earlier parent later dependents app_name dep,
     Forall (fun k => matches k dep = false) earlier ->
     matches parent dep = true ->
     let dependents' :=
       link_dep (earlier ++ parent :: later) dependents app_name dep in
     dict_get_or dependents' parent []
     = set_add app_name (dict_get_or dependents parent []) /\
     (forall x,
        In x (dict_get_or dependents' parent [])
        <-> x = app_name \/ In x (dict_get_or dependents parent [])) /\
     forall other,
       other <> parent ->
       dict_get_or dependents' other [] = dict_get_or dependents other []) /\
  (forall keys dependents app_name dep,
     Forall (fun k => matches k dep = false) keys ->
     link_dep keys dependents app_name dep = dependents) /\
  (forall O,
     snd (parse_clusterapps O
            [lit "foo-1.0.0|"; lit "foo-2.0.0|"; lit "x|foo"])
     = [(lit "foo-1.0.0", [lit "x"])]) /\
  (forall O,
     snd (parse_clusterapps O [lit "app-١.٢.٣|"; lit "app|"; lit "x|app"])
     = [(lit "app-١.٢.٣", [lit "x"])]).
Proof.
  split; [|split; [|split]].
  - intros earlier parent later dependents app_name dep Hn Hp.
    induction Hn as [|k earlier Hk _ IH]; simpl.
    + rewrite Hp. split; [apply defaultdict_add_same|].
      split; [intros x; rewrite defaultdict_add_same; apply set_add_In|].
      intros other Hne. now apply defaultdict_add_other.
    + rewrite Hk. exact IH.
  - intros keys dependents app_name dep Hn.
    induction Hn as [|k keys Hk _ IH]; simpl; [reflexivity|].
    now rewrite Hk.
  - intros O. unfold parse_clusterapps.
    replace (parse_lines _) with
      ([(lit "foo-1.0.0", @nil pystr); (lit "foo-2.0.0", []);
        (lit "x", [lit "foo"])],
       [(lit "foo-1.0.0", [lit "x"])]) by (vm_compute; reflexivity).
    unfold sort_values. simpl map. now rewrite sorted_set_iter.
  - intros O. unfold parse_clusterapps.
    replace (parse_lines _) with
      ([(lit "app-١.٢.٣", @nil pystr); (lit "app", []);
        (lit "x", [lit "app"])],
       [(lit "app-١.٢.٣", [lit "x"])]) by (vm_compute; reflexivity).
    unfold sort_values. simpl map. now rewrite sorted_set_iter.
Qed.

Lemma link_dep_first_match_only_witness :
  let keys := [lit "x"; lit "foo-1.0.0"; lit "foo-2.0.0"; lit "foo"] in
  let dependents := [(lit "foo-1.0.0", [lit "w"]); (lit "foo", [lit "y"])] in
  let dependents' := link_dep keys dependents (lit "x") (lit "foo") in
  dict_get_or dependents' (lit "foo-1.0.0") [] = [lit "w"; lit "x"] /\
  dict_get_or dependents' (lit "foo-2.0.0") [] = [] /\
  dict_get_or dependents' (lit "foo") [] = [lit "y"] /\
  link_dep keys dependents (lit "x") (lit "bar") = dependents.
Proof.
  destruct link_dep_first_match_only as [H1 [H2 _]].
  destruct (H1 [lit "x"] (lit "foo-1.0.0") [lit "foo-2.0.0"; lit "foo"]
              [(lit "foo-1.0.0", [lit "w"]); (lit "foo", [lit "y"])]
              (lit "x") (lit "foo")) as [Ha [_ Hb]].
  { repeat constructor. }
  { reflexivity. }
  split; [exact Ha|].
  split; [exact (Hb (lit "foo-2.0.0") ltac:(discriminate))|].
  split; [exact (Hb (lit "foo") ltac:(discriminate))|].
  apply H2. repeat constructor.
Defined.

Section ParserInvariants.

Lemma parse_clusterapps_fst (O : set_order) (lines : list pystr) :
  fst (parse_clusterapps O lines) = fst (parse_lines lines).
Proof. unfold parse_clusterapps. now destruct (parse_lines lines). Qed.

Lemma parse_clusterapps_snd (O : set_order) (lines : list pystr) :
  snd (parse_clusterapps O lines) = sort_values O (snd (parse_lines lines)).
Proof. unfold parse_clusterapps. now destruct (parse_lines lines). Qed.

(** The parser's result does not depend on how sets are iterated. *)
Lemma sort_values_order (O O' : set_order) (dd : dict pyset) :
  sort_values O dd = sort_values O' dd.
Proof.
  unfold sort_values. apply map_ext. intros [k v]. simpl.
  now rewrite !sorted_set_iter.
Qed.

Lemma parse_clusterapps_order (O O' : set_order) (lines : list pystr) :
  parse_clusterapps O lines = parse_clusterapps O' lines.
Proof.
  unfold parse_clusterapps. destruct (parse_lines lines) as [apps dd].
  now rewrite (sort_values_order O O').
Qed.

Lemma snoc_split {A} (l : list A) (x : A) (before : list A) (y : A)
    (after : list A) :
  l ++ [x] = before ++ y :: after ->
  (after = [] /\ before = l /\ y = x)
  \/ exists after', after = after' ++ [x] /\ l = before ++ y :: after'.
Proof.
  intros E. destruct (exists_last (l:=y :: after)) as [m [z Hm]];
    [discriminate|].
  rewrite Hm, app_assoc in E. apply app_inj_tail in E. destruct E as [-> ->].
  destruct after as [|a after].
  - left. destruct m as [|? [|? ?]]; try discriminate.
    injection Hm as ->. now rewrite app_nil_r.
  - right. destruct m as [|y' m]; [destruct after; discriminate|].
    injection Hm as -> Hm. exists m. rewrite Hm. now split.
Qed.

(** Every edge comes from one reference of one record of the child, and goes
    to the first identifier registered by then that the reference matches. *)
Lemma parse_lines_children (lines : list pystr) (parent child : pystr) :
  In child (dict_get_or (snd (parse_lines lines)) parent [])
  <-> exists before line after deps_str dep,
        lines = before ++ line :: after /\
        line_fields line = Some (child, deps_str) /\
        In dep (references deps_str) /\
        first_match (registered before line) dep parent.
Proof.
  induction lines as [|l lines IH] using rev_ind.
  - simpl. split; [tauto|].
    intros (before & ? & ? & ? & ? & E & _). now destruct before.
  - rewrite parse_lines_snoc. unfold parse_line at 1.
    destruct (line_fields l) as [[n d]|] eqn:El.
    + pose proof (parse_lines_snoc lines l) as Ereg.
      unfold parse_line in Ereg. rewrite El in Ereg.
      destruct (parse_lines lines) as [apps dd] eqn:Est.
      rewrite register_eq in *. simpl snd.
      rewrite link_deps_get. simpl snd in IH. rewrite IH. split.
      * intros [(before & line & after & ds & dep & -> & H1 & H2 & H3)
               |[[dep [H1 H2]] ->]].
        -- exists before, line, (after ++ [l]), ds, dep.
           rewrite <- app_assoc. now repeat split.
        -- exists lines, l, [], d, dep. repeat split; try assumption.
           unfold registered. now rewrite Ereg.
      * intros (before & line & after & ds & dep & E & H1 & H2 & H3).
        apply snoc_split in E.
        destruct E as [(-> & -> & ->)|(after' & -> & ->)].
        -- right. rewrite El in H1. injection H1 as <- <-.
           unfold registered in H3. rewrite Ereg in H3. eauto.
        -- left. now exists before, line, after', ds, dep.
    + rewrite IH. split.
      * intros (before & line & after & ds & dep & -> & H).
        exists before, line, (after ++ [l]), ds, dep.
        rewrite <- app_assoc. now split.
      * intros (before & line & after & ds & dep & E & H1 & H).
        apply snoc_split in E.
        destruct E as [(-> & -> & ->)|(after' & -> & ->)]; [congruence|].
        now exists before, line, after', ds, dep.
Qed.

Lemma parse_lines_keys_NoDup (lines : list pystr) :
  NoDup (dict_keys (fst (parse_lines lines))).
Proof.
  induction lines as [|l lines IH] using rev_ind; [constructor|].
  rewrite parse_lines_snoc. unfold parse_line.
  destruct (line_fields l) as [[n d]|]; [|exact IH].
  destruct (parse_lines lines) as [apps dd].
  rewrite register_eq. now apply dict_keys_set_NoDup.
Qed.

Lemma parse_lines_children_registered (lines : list pystr)
    (parent child : pystr) :
  In child (dict_get_or (snd (parse_lines lines)) parent []) ->
  In child (dict_keys (fst (parse_lines lines))).
Proof.
  induction lines as [|l lines IH] using rev_ind; [simpl; tauto|].
  rewrite parse_lines_snoc. unfold parse_line.
  destruct (line_fields l) as [[n d]|]; [|exact IH].
  destruct (parse_lines lines) as [apps dd].
  rewrite register_eq. simpl. rewrite link_deps_get, dict_keys_set_In.
  intros [H|[_ ->]]; [right; now apply IH|now left].
Qed.

End ParserInvariants.

(** C2, as the code has it.  For every sequence of lines, [child] is among
    the children of [parent] exactly when some record of [child] carries a
    reference whose first match, among the identifiers registered up to and
    including that record and in registration order, is [parent]. *)
Theorem children_are_first_matches (O : set_order) (lines : list pystr)
    (parent child : pystr) :
  In child (dict_get_or (snd (parse_clusterapps O lines)) parent [])
  <-> exists before line after deps_str dep,
        lines = before ++ line :: after /\
        line_fields line = Some (child, deps_str) /\
        In dep (references deps_str) /\
        first_match (registered before line) dep parent.
Proof.
  rewrite parse_clusterapps_snd, sort_values_get, sorted_In.
  apply parse_lines_children.
Qed.

(** C2, as stated, fails: "b" names "a" before "a" is registered, so the
    parents mapping holds the edge and the children mapping does not. *)
Lemma children_inverse_of_parents_fails :
  let g := parse_clusterapps insertion_order [lit "b|a"; lit "a|N/A"] in
  ~ children_inverse_of_parents (fst g) (snd g).
Proof.
  intros g H.
  destruct (H (lit "a") (lit "b")) as [_ Hback].
  - vm_compute. tauto.
  - assert (Hin : In (lit "b") (dict_get_or (snd g) (lit "a") [])).
    { apply Hback. exists (lit "a"). split; [|reflexivity].
      vm_compute. tauto. }
    vm_compute in Hin. exact Hin.
Qed.

(** ** Identifiers are cut from single lines *)

Section OneLine.

Lemma lstrip_suffix (s : pystr) : exists a, s = a ++ lstrip s.
Proof.
  induction s as [|c s [a IH]]; simpl.
  - now exists [].
  - destruct (is_space c).
    + exists (c :: a). simpl. now f_equal.
    + now exists [].
Qed.

Lemma lstrip_head (s : pystr) (c : char) (r : pystr) :
  lstrip s = c :: r -> is_space c = false.
Proof.
  induction s as [|x s IH]; simpl; [discriminate|].
  destruct (is_space x) eqn:E; [exact IH|].
  intros H. injection H as <- _. exact E.
Qed.

Lemma rstrip_prefix (s : pystr) : exists b, s = rstrip s ++ b.
Proof.
  unfold rstrip. destruct (lstrip_suffix (rev s)) as [a E].
  exists (rev a). rewrite <- rev_app_distr, <- E. now rewrite rev_involutive.
Qed.

Lemma rstrip_last (s r : pystr) (c : char) :
  rstrip s = r ++ [c] -> is_space c = false.
Proof.
  unfold rstrip. intros E.
  apply (f_equal (@rev char)) in E.
  rewrite rev_involutive, rev_app_distr in E. simpl in E.
  now apply lstrip_head in E.
Qed.

Lemma strip_middle (s : pystr) : exists a b, s = a ++ strip s ++ b.
Proof.
  unfold strip. destruct (lstrip_suffix s) as [a Ea].
  destruct (rstrip_prefix (lstrip s)) as [b Eb].
  exists a, b. now rewrite <- Eb.
Qed.

Lemma strip_incl (s : pystr) : incl (strip s) s.
Proof.
  destruct (strip_middle s) as (a & b & E). intros x Hx.
  rewrite E. apply in_or_app. right. apply in_or_app. now left.
Qed.

Lemma only_last {A} (s x y : list A) (c : A) :
  ~ In c s -> s ++ [c] = x ++ c :: y -> y = [].
Proof.
  intros Hs E. destruct y as [|z y]; [reflexivity|exfalso].
  destruct (exists_last (l:=z :: y)) as (y' & z' & Ey); [discriminate|].
  rewrite Ey in E.
  change (x ++ c :: y' ++ [z']) with (x ++ (c :: y') ++ [z']) in E.
  rewrite app_assoc in E. apply app_inj_tail in E. destruct E as [-> _].
  apply Hs, in_or_app. right. now left.
Qed.

(** [strip] takes away the line feed that ends a line. *)
Lemma strip_file_line (line : pystr) : file_line line -> one_line (strip line).
Proof.
  intros (s & Hs & [->| ->]).
  - intros H. now apply Hs, strip_incl.
  - intros H. apply in_split in H. destruct H as (t1 & t2 & Et).
    destruct (strip_middle (s ++ [LF])) as (a & b & E).
    rewrite Et in E.
    replace (a ++ (t1 ++ LF :: t2) ++ b)
      with ((a ++ t1) ++ LF :: (t2 ++ b)) in E
      by (rewrite <- !app_assoc; reflexivity).
    apply only_last in E; [|assumption].
    apply app_eq_nil in E. destruct E as [-> _].
    unfold strip in Et. now apply rstrip_last in Et.
Qed.

Lemma split_incl (sep : char) (s p : pystr) :
  In p (split sep s) -> incl p s.
Proof.
  revert p. induction s as [|c s IH]; simpl; intros p.
  - intros [<-|[]]. easy.
  - destruct (c =? sep)%N.
    + intros [<-|H]; [easy|]. apply incl_tl. now apply IH.
    + destruct (split sep s) as [|f fs] eqn:E.
      * intros [<-|[]]. apply incl_cons; [now left|easy].
      * intros [<-|H].
        -- apply incl_cons; [now left|]. apply incl_tl, IH. now left.
        -- apply incl_tl, IH. now right.
Qed.

Lemma nth_split_incl (sep : char) (s : pystr) (i : nat) :
  incl (nth i (split sep s) []) s.
Proof.
  destruct (nth_in_or_default i (split sep s) []) as [H| ->]; [|easy].
  now apply split_incl in H.
Qed.

Lemma line_fields_one_line (line app_name deps_str : pystr) :
  file_line line -> line_fields line = Some (app_name, deps_str) ->
  one_line app_name.
Proof.
  intros Hl. apply strip_file_line in Hl. unfold line_fields.
  destruct (negb (truthy (strip line))); [discriminate|].
  destruct (length (split BAR (strip line)) <? 2); [discriminate|].
  intros [= <- _] H. apply Hl.
  now apply strip_incl, nth_split_incl in H.
Qed.

(** Every identifier the parser registers is free of line feeds, so the
    one-line condition on [get_base_name] is met wherever the script calls
    it. *)
Lemma registered_one_line (lines : list pystr) (app_name : pystr) :
  Forall file_line lines ->
  In app_name (dict_keys (fst (parse_lines lines))) -> one_line app_name.
Proof.
  induction lines as [|l lines IH] using rev_ind; intros Hl;
    [simpl; tauto|].
  apply Forall_app in Hl. destruct Hl as [Hl Hl'].
  inversion Hl' as [|? ? Hline _]; subst.
  rewrite parse_lines_snoc. unfold parse_line.
  destruct (line_fields l) as [[n d]|] eqn:E; [|now apply IH].
  destruct (parse_lines lines) as [apps dd]. rewrite register_eq. simpl fst.
  rewrite dict_keys_set_In. intros [->|H].
  - now apply (line_fields_one_line l n d).
  - now apply IH.
Qed.

End OneLine.

(** C7, as the code has it.  A line with fewer than two fields is skipped:
    the graph is the one that the other lines give.  A line whose second
    field is empty or the "N/A" marker registers its identifier with an empty
    parent list. *)
Theorem short_line_is_skipped :
  (forall O before line after,
     length (split BAR (strip line)) < 2 ->
     parse_clusterapps O (before ++ line :: after)
     = parse_clusterapps O (before ++ after)) /\
  (forall O lines line app_name deps_str,
     line_fields line = Some (app_name, deps_str) ->
     deps_str = [] \/ deps_str = lit "N/A" ->
     dict_get (fst (parse_clusterapps O (lines ++ [line]))) app_name
     = Some []).
Proof.
  split.
  - intros O before line after Hlen.
    unfold parse_clusterapps, parse_lines.
    rewrite !fold_left_app.
    change (fold_left parse_line (line :: after) ?st)
      with (fold_left parse_line after (parse_line st line)).
    replace (parse_line (fold_left parse_line before ([], [])) line)
      with (fold_left parse_line before ([], [])); [reflexivity|].
    unfold parse_line, line_fields.
    destruct (negb (truthy (strip line))); [reflexivity|].
    apply Nat.ltb_lt in Hlen. now rewrite Hlen.
  - intros O lines line app_name deps_str Hf Hd.
    rewrite parse_clusterapps_fst, parse_lines_snoc.
    unfold parse_line. rewrite Hf.
    destruct (parse_lines lines) as [apps dd]. rewrite register_eq. simpl fst.
    rewrite dict_get_set_same. f_equal.
    destruct Hd as [->| ->]; reflexivity.
Qed.

Lemma short_line_is_skipped_witness :
  parse_clusterapps insertion_order [lit "a|N/A"; lit "solo"; lit "b|a"]
  = parse_clusterapps insertion_order [lit "a|N/A"; lit "b|a"] /\
  dict_get
    (fst (parse_clusterapps insertion_order [lit "a|N/A"; lit " solo | "]))
    (lit "solo")
  = Some [].
Proof.
  split.
  - apply (proj1 short_line_is_skipped insertion_order
             [lit "a|N/A"] (lit "solo") [lit "b|a"]).
    vm_compute. lia.
  - apply (proj2 short_line_is_skipped insertion_order
             [lit "a|N/A"] (lit " solo | ") (lit "solo") []).
    + reflexivity.
    + now left.
Defined.

(** C7, as stated, fails: the line "solo" has one field and registers
    nothing. *)
Lemma short_record_registered_fails : ~ short_record_registered.
Proof.
  intros H. specialize (H insertion_order [] (lit "solo")).
  assert (E : dict_get
                (fst (parse_clusterapps insertion_order ([] ++ [lit "solo"])))
                (strip (lit "solo")) = None) by reflexivity.
  rewrite H in E; [discriminate|reflexivity|vm_compute; lia].
Qed.

(** C10.  A record whose reference is its own base name, or its own name,
    makes the identifier one of its own children: the identifier is
    registered before its references are resolved. *)
Theorem self_loop_exists (O : set_order) :
  parse_clusterapps O [lit "foo-1.2.3|foo"]
  = ([(lit "foo-1.2.3", [lit "foo"])],
     [(lit "foo-1.2.3", [lit "foo-1.2.3"])]) /\
  parse_clusterapps O [lit "bar|bar"]
  = ([(lit "bar", [lit "bar"])], [(lit "bar", [lit "bar"])]) /\
  exists lines app_name,
    In app_name
       (dict_get_or (snd (parse_clusterapps O lines)) app_name []).
Proof.
  rewrite !(parse_clusterapps_order O insertion_order).
  split; [reflexivity|]. split; [reflexivity|].
  exists [lit "foo-1.2.3|foo"], (lit "foo-1.2.3").
  rewrite (parse_clusterapps_order O insertion_order).
  vm_compute. tauto.
Qed.

(** ** Block Renderer *)

Section RendererFacts.

Lemma border_shape (l r : char) (width : nat) :
  4 <= width ->
  [l; HBAR] ++ times HBAR (width - 4) ++ [HBAR; r]
  = l :: times HBAR (width - 2) ++ [r].
Proof.
  intros Hw. unfold times.
  replace (width - 2) with (S (S (width - 4))) by lia.
  simpl. do 2 f_equal.
  change [HBAR; r] with ([HBAR] ++ [r]). rewrite app_assoc.
  now rewrite <- repeat_cons.
Qed.

Lemma border_length (l r : char) (width : nat) :
  2 <= width -> length (l :: times HBAR (width - 2) ++ [r]) = width.
Proof.
  intros Hw. simpl. rewrite length_app. unfold times.
  rewrite repeat_length. simpl. lia.
Qed.

Lemma child_lines_length (i n : nat) (children : list pystr) :
  length (child_lines i n children) = length children.
Proof.
  revert i. induction children as [|c cs IH]; simpl; intros i; [reflexivity|].
  now rewrite IH.
Qed.

End RendererFacts.

(** C9.  The block of an identifier holds a box of three lines.  Its top and
    bottom lines are a corner, strokes and a corner, and are as wide as the
    larger of 50 and the length of the displayed name (the first 60
    characters) plus 4.  The middle line carries " [ROOT]" after the name
    exactly when the parent list is empty.  Without children the block ends
    with the one line "(no dependents)"; with children it ends with three
    connector lines and one line per child. *)
Theorem draw_app_block_box (apps dependents : dict (list pystr))
    (app_name : pystr) :
  let deps := dict_get_or apps app_name [] in
  let children := dict_get_or dependents app_name [] in
  let app_display := firstn 60 app_name in
  let width := Nat.max 50 (length app_display + 4) in
  exists above top middle bottom below pad,
    draw_app_block apps dependents app_name
    = above ++ [top; middle; bottom] ++ below /\
    (deps = [] <-> above = []) /\
    top = 9484%N :: times HBAR (width - 2) ++ [9488%N] /\
    bottom = 9492%N :: times HBAR (width - 2) ++ [9496%N] /\
    length top = width /\
    length bottom = width /\
    middle = lit "│ " ++ app_display
               ++ (if truthy deps then [] else lit " [ROOT]")
               ++ times SPACE pad ++ lit "│" /\
    (children = [] -> below = [lit "    └─ (no dependents)"]) /\
    (children <> [] ->
     exists per_child,
       below = [lit "    │"; lit "    ▼"; lit "    └─ Children (used by):"]
                 ++ per_child /\
       length per_child = length children).
Proof.
  intros deps children app_display width.
  assert (Hw : 4 <= width) by (unfold width; lia).
  assert (Hw2 : 2 <= width) by lia.
  assert (Etop : lit "┌─" ++ times HBAR (width - 4) ++ lit "─┐"
                 = 9484%N :: times HBAR (width - 2) ++ [9488%N])
    by exact (border_shape 9484%N 9488%N width Hw).
  assert (Ebot : lit "└─" ++ times HBAR (width - 4) ++ lit "─┘"
                 = 9492%N :: times HBAR (width - 2) ++ [9496%N])
    by exact (border_shape 9492%N 9496%N width Hw).
  pose proof (border_length 9484%N 9488%N width Hw2) as Ltop.
  pose proof (border_length 9492%N 9496%N width Hw2) as Lbot.
  unfold draw_app_block.
  fold deps. fold children. fold app_display.
  replace (Nat.max (length app_display + 4) 50) with width
    by (unfold width; apply Nat.max_comm).
  rewrite Etop, Ebot.
  set (top := 9484%N :: times HBAR (width - 2) ++ [9488%N]) in *.
  set (bottom := 9492%N :: times HBAR (width - 2) ++ [9496%N]) in *.
  destruct deps as [|d deps'] eqn:Ed; destruct children as [|c cs] eqn:Ec;
    cbn [truthy length Nat.eqb app].
  - exists [], top, (lit "│ " ++ app_display ++ lit " [ROOT]"
                     ++ times SPACE (width - length app_display - 8)
                     ++ lit "│"), bottom,
      [lit "    └─ (no dependents)"], (width - length app_display - 8).
    repeat split; try reflexivity; try assumption; try congruence.
  - exists [], top, (lit "│ " ++ app_display ++ lit " [ROOT]"
                     ++ times SPACE (width - length app_display - 8)
                     ++ lit "│"), bottom,
      ([lit "    │"; lit "    ▼"; lit "    └─ Children (used by):"]
         ++ child_lines 0 (S (length cs)) (c :: cs)),
      (width - length app_display - 8).
    repeat split; try reflexivity; try assumption; try congruence.
    intros _. eexists. split; [reflexivity|].
    now rewrite child_lines_length.
  - eexists [_; _; _], top,
      (lit "│ " ++ app_display
         ++ times SPACE (width - length app_display - 4) ++ lit "│"),
      bottom, [lit "    └─ (no dependents)"],
      (width - length app_display - 4).
    repeat split; try reflexivity; try assumption; try congruence;
      try discriminate.
  - eexists [_; _; _], top,
      (lit "│ " ++ app_display
         ++ times SPACE (width - length app_display - 4) ++ lit "│"),
      bottom,
      ([lit "    │"; lit "    ▼"; lit "    └─ Children (used by):"]
         ++ child_lines 0 (S (length cs)) (c :: cs)),
      (width - length app_display - 4).
    repeat split; try reflexivity; try assumption; try congruence;
      try discriminate.
    intros _. eexists. split; [reflexivity|].
    now rewrite child_lines_length.
Qed.

(** ** Chain Traversal *)

Section TraversalFacts.

Variable dependents : dict (list pystr).

Lemma enqueue_length (processed : pyset) (children queue : list pystr) :
  length (enqueue processed queue children) <= length queue + length children.
Proof.
  unfold enqueue. revert queue.
  induction children as [|c cs IH]; simpl; intros queue; [lia|].
  destruct (negb (mem c processed) && negb (mem c queue)).
  - specialize (IH (queue ++ [c])). rewrite length_app in IH. simpl in IH. lia.
  - specialize (IH queue). lia.
Qed.

Lemma enqueue_In (processed : pyset) (children queue : list pystr) (x : pystr) :
  In x (enqueue processed queue children) -> In x queue \/ In x children.
Proof.
  unfold enqueue. revert queue.
  induction children as [|c cs IH]; simpl; intros queue; [tauto|].
  destruct (negb (mem c processed) && negb (mem c queue)); intros H;
    apply IH in H; [rewrite in_app_iff in H; simpl in H|]; tauto.
Qed.

Lemma pending_add_le (d : dict (list pystr)) (app : pystr) (processed : pyset) :
  pending d (set_add app processed) <= pending d processed.
Proof.
  induction d as [|[k v] d IH]; simpl; [lia|].
  destruct (mem k processed) eqn:E.
  - apply mem_true in E.
    assert (E' : mem k (set_add app processed) = true)
      by (apply mem_true, set_add_In; now right).
    rewrite E'. lia.
  - destruct (mem k (set_add app processed)); lia.
Qed.

Lemma pending_pop (d : dict (list pystr)) (app : pystr) (processed : pyset) :
  ~ In app processed ->
  pending d (set_add app processed) + length (dict_get_or d app [])
  <= pending d processed.
Proof.
  intros Hn. unfold dict_get_or.
  induction d as [|[k v] d IH]; simpl; [lia|].
  destruct (str_eq_dec k app) as [->|Hne].
  - assert (E : mem app (set_add app processed) = true)
      by (apply mem_true, set_add_In; now left).
    assert (E' : mem app processed = false) by now apply mem_false.
    rewrite E, E'. pose proof (pending_add_le d app processed). lia.
  - assert (E : mem k (set_add app processed) = mem k processed).
    { destruct (mem k processed) eqn:Ek.
      - apply mem_true. apply set_add_In. right. now apply mem_true.
      - apply mem_false. rewrite set_add_In. apply mem_false in Ek.
        intros [H|H]; congruence. }
    rewrite E. lia.
Qed.

Lemma pending_le_total (d : dict (list pystr)) (processed : pyset) :
  pending d processed <= length (concat (map snd d)).
Proof.
  induction d as [|[k v] d IH]; simpl; [lia|].
  rewrite length_app. destruct (mem k processed); lia.
Qed.

(** The loop ends before the fuel does. *)
Lemma bfs_loop_terminates (fuel : nat) :
  forall queue processed chain_apps,
    length queue + pending dependents processed <= fuel ->
    exists r, bfs_loop fuel dependents queue processed chain_apps = Some r.
Proof.
  induction fuel as [|fuel IH]; intros [|app queue] processed chain_apps Hf;
    simpl in *; eauto; try lia.
  destruct (mem app processed) eqn:E.
  - apply IH. lia.
  - apply mem_false in E. apply IH.
    pose proof (enqueue_length (set_add app processed)
                  (dict_get_or dependents app []) queue).
    pose proof (pending_pop dependents app processed E). lia.
Qed.

(** What one run of the loop adds to the chain and to the processed set. *)
Lemma bfs_loop_spec (P : pystr -> Prop) (fuel : nat) :
  (forall parent child,
     In child (dict_get_or dependents parent []) -> P child) ->
  forall queue processed chain_apps chain_apps' processed',
    bfs_loop fuel dependents queue processed chain_apps
    = Some (chain_apps', processed') ->
    Forall P queue ->
    exists new,
      chain_apps' = chain_apps ++ new /\
      NoDup new /\
      Forall P new /\
      (forall x, In x new -> ~ In x processed) /\
      (forall x, In x processed' <-> In x processed \/ In x new).
Proof.
  intros HP.
  induction fuel as [|fuel IH];
    intros [|app queue] processed chain_apps chain_apps' processed' E HQ;
    simpl in E; try discriminate.
  1, 2: injection E as <- <-; exists []; rewrite app_nil_r;
    repeat split; try constructor; simpl; tauto.
  inversion HQ as [|? ? Happ Hqueue]; subst.
  destruct (mem app processed) eqn:Em.
  - now apply (IH queue processed chain_apps).
  - apply mem_false in Em. apply IH in E.
    + destruct E as (new & -> & Hnd & Hall & Hfresh & Hproc).
      exists (app :: new). rewrite <- app_assoc. simpl.
      split; [reflexivity|].
      split; [constructor; [|assumption]|].
      { intros Hin. apply (Hfresh app Hin), set_add_In. now left. }
      split; [now constructor|].
      split.
      * intros x [<-|Hx]; [assumption|].
        intros Hp. apply (Hfresh x Hx), set_add_In. now right.
      * intros x. rewrite Hproc, set_add_In. intuition.
    + apply Forall_forall. intros x Hx. apply enqueue_In in Hx.
      destruct Hx as [Hx|Hx]; [|now apply HP in Hx].
      rewrite Forall_forall in Hqueue. now apply Hqueue.
Qed.

End TraversalFacts.

Section RootLoop.

Variables apps dependents : dict (list pystr).
Variable P : pystr -> Prop.
Hypothesis children_in_P :
  forall parent child, In child (dict_get_or dependents parent []) -> P child.

Lemma root_chain_returns (st : assembly) (root_idx : nat) (root : pystr) :
  exists st', root_chain apps dependents st root_idx root = Some st'.
Proof.
  unfold root_chain.
  destruct (bfs_loop_terminates dependents (bfs_fuel dependents)
              [root] (processed st) []) as [[chain_apps processed'] ->].
  - unfold bfs_fuel. simpl.
    pose proof (pending_le_total dependents (processed st)). lia.
  - eauto.
Qed.

Lemma root_chain_inv (st st' : assembly) (root_idx : nat) (root : pystr) :
  root_chain apps dependents st root_idx root = Some st' ->
  P root -> chains_inv P st -> chains_inv P st'.
Proof.
  unfold root_chain.
  destruct (bfs_loop _ _ _ _ _) as [[chain_apps processed']|] eqn:E;
    [|discriminate].
  intros [= <-] Hroot (Hnd & Hsame & HP).
  apply (bfs_loop_spec dependents P _ children_in_P) in E;
    [|now repeat constructor].
  destruct E as (new & -> & Hnew & Hall & Hfresh & Hproc).
  unfold chains_inv. simpl. rewrite concat_app. simpl. rewrite app_nil_r.
  repeat split.
  - apply NoDup_app; try assumption.
    intros a Ha Hin. apply (Hfresh a Hin). now apply Hsame.
  - rewrite Hproc, in_app_iff, Hsame. tauto.
  - rewrite in_app_iff, <- Hsame, Hproc. tauto.
  - intros x Hx. apply Hproc in Hx. destruct Hx as [Hx|Hx]; [now apply HP|].
    rewrite Forall_forall in Hall. now apply Hall.
Qed.

Lemma root_chains_inv (roots : list pystr) :
  forall st root_idx,
    Forall P roots -> chains_inv P st ->
    exists st',
      root_chains apps dependents st root_idx roots = Some st' /\
      chains_inv P st'.
Proof.
  induction roots as [|root roots IH]; intros st root_idx HP Hinv; simpl.
  - eauto.
  - inversion HP; subst.
    destruct (root_chain_returns st root_idx root) as [st1 E].
    rewrite E. apply IH; [assumption|].
    now apply (root_chain_inv st st1 root_idx root).
Qed.

End RootLoop.

Section TraversalResult.

Lemma find_roots_registered (apps : dict (list pystr)) (x : pystr) :
  In x (find_roots apps) -> In x (dict_keys apps).
Proof.
  unfold find_roots, dict_keys. rewrite sorted_In, in_map_iff.
  intros [kv [<- H]]. apply filter_In in H. apply in_map. tauto.
Qed.

Lemma orphans_order (O O' : set_order) (apps : dict (list pystr))
    (processed : pyset) :
  orphans O apps processed = orphans O' apps processed.
Proof. unfold orphans. now rewrite !sorted_set_iter. Qed.

Lemma orphans_In (O : set_order) (apps : dict (list pystr))
    (processed : pyset) (x : pystr) :
  In x (orphans O apps processed)
  <-> In x (dict_keys apps) /\ ~ In x processed.
Proof.
  unfold orphans, remaining.
  rewrite sorted_set_iter, sorted_In, set_diff_In.
  now rewrite (proj2 (set_of_list_spec (dict_keys apps))).
Qed.

Lemma orphans_NoDup (O : set_order) (apps : dict (list pystr))
    (processed : pyset) :
  NoDup (orphans O apps processed).
Proof.
  unfold orphans, remaining. rewrite sorted_set_iter.
  apply (Permutation_NoDup (Permutation_sym (sorted_perm _))).
  apply NoDup_filter, set_of_list_spec.
Qed.

Lemma chain_traversal_order (O O' : set_order)
    (apps dependents : dict (list pystr)) :
  chain_traversal O apps dependents = chain_traversal O' apps dependents.
Proof.
  unfold chain_traversal. destruct (root_sections apps dependents); [|easy].
  now rewrite (orphans_order O O').
Qed.

Lemma create_block_diagram_order (O O' : set_order)
    (apps dependents : dict (list pystr)) :
  create_block_diagram O apps dependents
  = create_block_diagram O' apps dependents.
Proof.
  unfold create_block_diagram.
  destruct (root_sections apps dependents); [|easy].
  now rewrite (orphans_order O O').
Qed.

(** Chains and remainder of any graph whose children are registered. *)
Lemma chain_traversal_partitions (O : set_order)
    (apps dependents : dict (list pystr)) :
  children_registered apps dependents ->
  exists chains remainder,
    chain_traversal O apps dependents = Some (chains, remainder) /\
    partitions apps chains remainder.
Proof.
  intros Hreg. unfold chain_traversal, root_sections.
  destruct (root_chains_inv apps dependents
              (fun x => In x (dict_keys apps)) Hreg (find_roots apps)
              {| lines := title; processed := []; chains := [] |} 0)
    as (st & -> & Hnd & Hsame & HP).
  - apply Forall_forall. apply find_roots_registered.
  - repeat split; simpl; try constructor; tauto.
  - exists (chains st), (orphans O apps (processed st)).
    split; [reflexivity|]. split.
    + apply NoDup_app; [assumption|apply orphans_NoDup|].
      intros a Ha Hin. apply orphans_In in Hin. apply Hsame in Ha. tauto.
    + intros x. rewrite in_app_iff, orphans_In, <- Hsame. split.
      * intros [H|[H _]]; [now apply HP|assumption].
      * intros H. destruct (in_dec str_eq_dec x (processed st)); tauto.
Qed.

Lemma children_registeredb_true (apps dependents : dict (list pystr)) :
  children_registeredb apps dependents = true ->
  children_registered apps dependents.
Proof.
  unfold children_registeredb, children_registered, dict_get_or.
  rewrite forallb_forall. intros H parent child.
  destruct (dict_get dependents parent) as [v|] eqn:E; [|simpl; tauto].
  apply dict_get_In, H in E. simpl in E. rewrite forallb_forall in E.
  intros Hc. now apply mem_true, E.
Qed.

Lemma parse_clusterapps_children_registered (O : set_order)
    (lines : list pystr) :
  children_registered (fst (parse_clusterapps O lines))
                      (snd (parse_clusterapps O lines)).
Proof.
  intros parent child.
  rewrite parse_clusterapps_fst, parse_clusterapps_snd.
  rewrite sort_values_get, sorted_In.
  apply parse_lines_children_registered.
Qed.

End TraversalResult.

(** C1.  For every graph whose children are registered identifiers, which
    is the case of every graph the parser builds, Chain Traversal returns
    chains and a remainder in which each registered identifier occurs once
    and nothing else occurs. *)
Theorem chains_partition_graph (O : set_order) :
  (forall apps dependents,
     children_registered apps dependents ->
     exists chains remainder,
       chain_traversal O apps dependents = Some (chains, remainder) /\
       partitions apps chains remainder) /\
  (forall lines,
     exists chains remainder,
       chain_traversal O (fst (parse_clusterapps O lines))
                       (snd (parse_clusterapps O lines))
       = Some (chains, remainder) /\
       partitions (fst (parse_clusterapps O lines)) chains remainder).
Proof.
  split.
  - apply chain_traversal_partitions.
  - intros lines. apply chain_traversal_partitions.
    apply parse_clusterapps_children_registered.
Qed.

Lemma chains_partition_graph_witness :
  let apps := [(lit "b", [lit "a"]); (lit "c", []); (lit "a", []);
               (lit "d", [lit "e"]); (lit "e", [lit "d"])] in
  let dependents := [(lit "a", [lit "b"; lit "c"]); (lit "d", [lit "e"]);
                     (lit "e", [lit "d"])] in
  chain_traversal insertion_order apps dependents
  = Some ([[lit "a"; lit "b"; lit "c"]; []], [lit "d"; lit "e"]) /\
  partitions apps [[lit "a"; lit "b"; lit "c"]; []] [lit "d"; lit "e"].
Proof.
  intros apps dependents.
  destruct (proj1 (chains_partition_graph insertion_order) apps dependents)
    as (chains & remainder & E & Hpart).
  - apply children_registeredb_true. reflexivity.
  - assert (E' : chain_traversal insertion_order apps dependents
                 = Some ([[lit "a"; lit "b"; lit "c"]; []],
                         [lit "d"; lit "e"])) by reflexivity.
    rewrite E' in E. injection E as <- <-. now split.
Defined.

(** ** Worked examples and the assembled diagram *)

(** C5.  The lines "a|N/A", "b|a" and "c|a,b" give a graph whose only root
    is "a", where the children of "a" are "b" and "c", the only child of "b"
    is "c" and "c" has none; its traversal yields the one chain a, b, c and
    an empty remainder. *)
Theorem example_graph_and_chain (O : set_order) :
  let g := parse_clusterapps O [lit "a|N/A"; lit "b|a"; lit "c|a,b"] in
  find_roots (fst g) = [lit "a"] /\
  dict_get_or (snd g) (lit "a") [] = [lit "b"; lit "c"] /\
  dict_get_or (snd g) (lit "b") [] = [lit "c"] /\
  dict_get_or (snd g) (lit "c") [] = [] /\
  chain_traversal O (fst g) (snd g)
  = Some ([[lit "a"; lit "b"; lit "c"]], []).
Proof.
  intros g. subst g.
  rewrite (parse_clusterapps_order O insertion_order).
  rewrite (chain_traversal_order O insertion_order).
  repeat split; reflexivity.
Qed.

(** C6.  The line "x|nonexistent-app" stores the reference as the parent
    list of "x" and forms no edge; no root is found; the traversal and the
    assembler still return, with "x" as the only orphan and the unresolved
    name on its "depends on" line. *)
Theorem unresolved_reference (O : set_order) :
  let g := parse_clusterapps O [lit "x|nonexistent-app"] in
  fst g = [(lit "x", [lit "nonexistent-app"])] /\
  snd g = [] /\
  find_roots (fst g) = [] /\
  chain_traversal O (fst g) (snd g) = Some ([], [lit "x"]) /\
  In (lit "    ┌─ Parents (depends on): nonexistent-app")
     (draw_app_block (fst g) (snd g) (lit "x")) /\
  exists text, create_block_diagram O (fst g) (snd g) = Some text.
Proof.
  intros g. subst g.
  rewrite (parse_clusterapps_order O insertion_order).
  rewrite (chain_traversal_order O insertion_order).
  rewrite (create_block_diagram_order O insertion_order).
  repeat split; try reflexivity.
  - vm_compute. tauto.
  - eexists. vm_compute. reflexivity.
Qed.

Section AssemblerFacts.

Lemma root_sections_returns (apps dependents : dict (list pystr)) :
  exists st, root_sections apps dependents = Some st.
Proof.
  unfold root_sections.
  destruct (root_chains_inv apps dependents (fun _ => True)
              (fun _ _ _ => I) (find_roots apps)
              {| lines := title; processed := []; chains := [] |} 0)
    as (st & E & _).
  - now apply Forall_forall.
  - repeat split; simpl; try constructor; tauto.
  - eauto.
Qed.

Lemma create_block_diagram_returns (O : set_order)
    (apps dependents : dict (list pystr)) :
  exists text, create_block_diagram O apps dependents = Some text.
Proof.
  unfold create_block_diagram.
  destruct (root_sections_returns apps dependents) as [st ->]. eauto.
Qed.

Lemma assemble_eq (O : set_order) (file_lines : list pystr) :
  assemble O file_lines
  = create_block_diagram O (fst (parse_clusterapps O file_lines))
                         (snd (parse_clusterapps O file_lines)).
Proof. unfold assemble. now destruct (parse_clusterapps O file_lines). Qed.

End AssemblerFacts.

(** C8.  The assembled diagram is the same text whatever order the
    interpreter iterates its sets in, on this run or on another one: the
    assembler always returns a text, the text depends on the lines alone,
    and each set that reaches the output, the children of an identifier and
    the orphans, is put in sorted order first. *)
Theorem assemble_deterministic (O1 O2 : set_order) (file_lines : list pystr) :
  assemble O1 file_lines = assemble O2 file_lines /\
  (exists text, assemble O1 file_lines = Some text) /\
  (forall parent,
     Sorted str_le
       (dict_get_or (snd (parse_clusterapps O1 file_lines)) parent [])) /\
  (forall processed,
     Sorted str_le
       (orphans O1 (fst (parse_clusterapps O1 file_lines)) processed)).
Proof.
  repeat split.
  - rewrite !assemble_eq.
    rewrite (parse_clusterapps_order O1 O2).
    apply create_block_diagram_order.
  - rewrite assemble_eq. apply create_block_diagram_returns.
  - intros parent. rewrite parse_clusterapps_snd, sort_values_get.
    apply sorted_Sorted.
  - intros processed. apply sorted_Sorted.
Qed.

(** ** The embedding at work *)

Section Examples.

Example lit_corner : lit "┌─" = [9484%N; HBAR].
Proof. reflexivity. Qed.

Example strip_line : strip (lit "  kube|a , b  " ++ [LF]) = lit "kube|a , b".
Proof. reflexivity. Qed.

Example split_keeps_empty_fields :
  split COMMA (lit "a,,b,") = [lit "a"; []; lit "b"; []].
Proof. reflexivity. Qed.

Example split_deps_trims :
  split_deps (lit "a , ,b-1.0.0,") = [lit "a"; lit "b-1.0.0"].
Proof. reflexivity. Qed.

Example str_of_nat_12 : str_of_nat 12 = lit "12".
Proof. reflexivity. Qed.

Example sorted_by_code_point :
  sorted [lit "b"; lit "a-2"; lit "B"; lit "a"; lit "a-10"]
  = [lit "B"; lit "a"; lit "a-10"; lit "a-2"; lit "b"].
Proof. reflexivity. Qed.

Example base_name_of_build : get_base_name (lit "app-1.2.3-build") = lit "app".
Proof. reflexivity. Qed.

Example base_name_two_groups : get_base_name (lit "app-1.2") = lit "app-1.2".
Proof. reflexivity. Qed.

Example base_name_keeps_final_line_feed :
  get_base_name (lit "app-1.2.3" ++ [LF]) = lit "app" ++ [LF].
Proof. reflexivity. Qed.

Example base_name_across_lines :
  get_base_name (lit "a-1.2.3" ++ [LF] ++ lit "b-4.5.6")
  = lit "a-1.2.3" ++ [LF] ++ lit "b".
Proof. reflexivity. Qed.

Example block_of_lone_root :
  draw_app_block [(lit "abc", [])] [] (lit "abc")
  = [lit "┌────────────────────────────────────────────────┐";
     lit "│ abc [ROOT]                                       │";
     lit "└────────────────────────────────────────────────┘";
     lit "    └─ (no dependents)"].
Proof. reflexivity. Qed.

Example block_with_parent_and_children :
  draw_app_block [(lit "b", [lit "a"])] [(lit "b", [lit "c"; lit "d"])]
                 (lit "b")
  = [lit "    ┌─ Parents (depends on): a";
     lit "    │";
     lit "    ▼";
     lit "┌────────────────────────────────────────────────┐";
     lit "│ b                                             │";
     lit "└────────────────────────────────────────────────┘";
     lit "    │";
     lit "    ▼";
     lit "    └─ Children (used by):";
     lit "      ├─ c";
     lit "      └─ d"].
Proof. reflexivity. Qed.

(** No records: no root, no orphan, the title and the closing fence. *)
Example diagram_of_no_record (O : set_order) :
  parse_clusterapps O [] = ([], []) /\
  assemble O [] = Some (join [LF] (title ++ [lit "```"; []])).
Proof. split; reflexivity. Qed.

(** A root that is also a child: "a" is registered twice, first with the
    parent "b"; its chain comes first and the walk from "b" skips it. *)
Example root_met_again (O : set_order) :
  let g := parse_clusterapps O [lit "b|"; lit "a|b"; lit "a|N/A"] in
  g = ([(lit "b", []); (lit "a", [])], [(lit "b", [lit "a"])]) /\
  chain_traversal O (fst g) (snd g) = Some ([[lit "a"]; [lit "b"]], []).
Proof.
  intros g. subst g.
  rewrite (parse_clusterapps_order O insertion_order).
  rewrite (chain_traversal_order O insertion_order).
  split; reflexivity.
Qed.

(** Iterating the sets backwards gives the same text. *)
Example same_text_backwards :
  assemble reverse_order
    [lit "a|N/A"; lit "c|a"; lit "b|a"; lit "y|z"; lit "x|z"]
  = assemble insertion_order
      [lit "a|N/A"; lit "c|a"; lit "b|a"; lit "y|z"; lit "x|z"].
Proof. vm_compute. reflexivity. Qed.

End Examples.

(** * Further properties of the parser *)

Section ParserShape.

Lemma set_of_list_snoc (l : list pystr) (x : pystr) :
  set_of_list (l ++ [x]) = set_add x (set_of_list l).
Proof. unfold set_of_list. now rewrite fold_left_app. Qed.

Lemma line_names_snoc (lines : list pystr) (line : pystr) :
  line_names (lines ++ [line])
  = line_names lines
    ++ match line_fields line with Some (n, _) => [n] | None => [] end.
Proof.
  unfold line_names. rewrite flat_map_app. simpl. now rewrite app_nil_r.
Qed.

Lemma parse_lines_keys (lines : list pystr) :
  dict_keys (fst (parse_lines lines)) = set_of_list (line_names lines).
Proof.
  induction lines as [|l lines IH] using rev_ind; [reflexivity|].
  rewrite parse_lines_snoc, line_names_snoc. unfold parse_line.
  destruct (line_fields l) as [[n d]|].
  - destruct (parse_lines lines) as [apps dd]. rewrite register_eq.
    simpl fst in *. rewrite dict_keys_set, IH, set_of_list_snoc.
    reflexivity.
  - now rewrite app_nil_r.
Qed.

Lemma line_names_In (lines : list pystr) (x : pystr) :
  In x (line_names lines)
  <-> exists line deps_str,
        In line lines /\ line_fields line = Some (x, deps_str).
Proof.
  unfold line_names. rewrite in_flat_map. split.
  - intros (line & Hl & Hx).
    destruct (line_fields line) as [[n d]|] eqn:E; [|contradiction].
    destruct Hx as [<-|[]]. now exists line, d.
  - intros (line & d & Hl & E). exists line. rewrite E. split; [easy|now left].
Qed.

End ParserShape.

(** X1.  Registration order is the order of first occurrence: the keys of
    [apps] are the identifiers of the lines that are not skipped, each kept
    once at the place where it first occurs. *)
Theorem registration_order (O : set_order) (file_lines : list pystr) :
  let keys := dict_keys (fst (parse_clusterapps O file_lines)) in
  keys = set_of_list (line_names file_lines) /\
  NoDup keys /\
  forall x,
    In x keys
    <-> exists line deps_str,
          In line file_lines /\ line_fields line = Some (x, deps_str).
Proof.
  intros keys. subst keys. rewrite parse_clusterapps_fst, parse_lines_keys.
  split; [reflexivity|]. split; [apply set_of_list_spec|].
  intros x. rewrite (proj2 (set_of_list_spec _)). apply line_names_In.
Qed.

Lemma parse_lines_last_record (before : list pystr) (line : pystr)
    (after : list pystr) (app_name deps_str : pystr) :
  line_fields line = Some (app_name, deps_str) ->
  (forall l d, In l after -> line_fields l <> Some (app_name, d)) ->
  dict_get (fst (parse_lines (before ++ line :: after))) app_name
  = Some (references deps_str).
Proof.
  intros Hf.
  induction after as [|l after IH] using rev_ind; intros Hafter.
  - rewrite parse_lines_snoc. unfold parse_line. rewrite Hf.
    destruct (parse_lines before) as [apps dd]. rewrite register_eq.
    apply dict_get_set_same.
  - replace (before ++ line :: after ++ [l])
      with ((before ++ line :: after) ++ [l])
      by (rewrite <- app_assoc; reflexivity).
    rewrite parse_lines_snoc. unfold parse_line.
    assert (IH' : dict_get (fst (parse_lines (before ++ line :: after)))
                    app_name = Some (references deps_str)).
    { apply IH. intros l' d Hl'. apply Hafter, in_or_app. now left. }
    destruct (line_fields l) as [[n d]|] eqn:El; [|exact IH'].
    destruct (parse_lines (before ++ line :: after)) as [apps dd].
    rewrite register_eq. simpl fst in *.
    rewrite dict_get_set_other; [exact IH'|].
    intros ->. apply (Hafter l d); [|exact El].
    apply in_or_app. right. now left.
Qed.

(** X2.  The last record of an identifier decides its parent list: the
    references of that record, whatever earlier records of the identifier
    said. *)
Theorem last_record_wins (O : set_order) (before : list pystr) (line : pystr)
    (after : list pystr) (app_name deps_str : pystr) :
  line_fields line = Some (app_name, deps_str) ->
  (forall l d, In l after -> line_fields l <> Some (app_name, d)) ->
  dict_get (fst (parse_clusterapps O (before ++ line :: after))) app_name
  = Some (references deps_str).
Proof.
  intros Hf Hafter. rewrite parse_clusterapps_fst.
  now apply parse_lines_last_record.
Qed.

Lemma last_record_wins_witness :
  dict_get
    (fst (parse_clusterapps insertion_order
            [lit "a|x,y"; lit "b|a"; lit "a|N/A"; lit "c|b"]))
    (lit "a")
  = Some [].
Proof.
  apply (last_record_wins insertion_order [lit "a|x,y"; lit "b|a"]
           (lit "a|N/A") [lit "c|b"] (lit "a") (lit "N/A")).
  - reflexivity.
  - intros l d [<-|[]]. vm_compute. discriminate.
Defined.

Section ParserGrowth.

Lemma set_add_extends (x : pystr) (s : pyset) :
  exists added, set_add x s = s ++ added.
Proof.
  unfold set_add. destruct (mem x s).
  - exists []. now rewrite app_nil_r.
  - now exists [x].
Qed.

Lemma set_of_list_app_extends (l more : list pystr) :
  exists added, set_of_list (l ++ more) = set_of_list l ++ added.
Proof.
  induction more as [|x more [added IH]] using rev_ind.
  - exists []. now rewrite !app_nil_r.
  - rewrite app_assoc, set_of_list_snoc, IH.
    destruct (set_add_extends x (set_of_list l ++ added)) as [a ->].
    exists (added ++ a). now rewrite app_assoc.
Qed.

Lemma line_names_app (l more : list pystr) :
  line_names (l ++ more) = line_names l ++ line_names more.
Proof. unfold line_names. apply flat_map_app. Qed.

End ParserGrowth.

(** X3.  Reading further lines never takes anything away: the identifiers
    registered so far keep their places at the front of the registration
    order, and every edge formed so far stays, also when a later record
    registers the child again with other references. *)
Theorem appended_lines_keep_graph (O : set_order)
    (file_lines more : list pystr) (parent child : pystr) :
  (exists added,
     dict_keys (fst (parse_clusterapps O (file_lines ++ more)))
     = dict_keys (fst (parse_clusterapps O file_lines)) ++ added) /\
  (In child (dict_get_or (snd (parse_clusterapps O file_lines)) parent []) ->
   In child
      (dict_get_or (snd (parse_clusterapps O (file_lines ++ more)))
                   parent [])).
Proof.
  split.
  - rewrite !parse_clusterapps_fst, !parse_lines_keys, line_names_app.
    apply set_of_list_app_extends.
  - rewrite !parse_clusterapps_snd, !sort_values_get, !sorted_In.
    rewrite !parse_lines_children.
    intros (before & line & after & ds & dep & -> & H).
    exists before, line, (after ++ more), ds, dep.
    rewrite <- app_assoc. now split.
Qed.

Lemma appended_lines_keep_graph_witness :
  In (lit "a")
     (dict_get_or
        (snd (parse_clusterapps insertion_order
                ([lit "b|"; lit "a|b"] ++ [lit "a|N/A"; lit "c|a"])))
        (lit "b") []).
Proof.
  apply (proj2 (appended_lines_keep_graph insertion_order
                  [lit "b|"; lit "a|b"] [lit "a|N/A"; lit "c|a"]
                  (lit "b") (lit "a"))).
  vm_compute. tauto.
Defined.

Section DependentsShape.

Lemma set_add_nonempty (x : pystr) (s : pyset) : set_add x s <> [].
Proof.
  unfold set_add. destruct (mem x s) eqn:E.
  - apply mem_true in E. now destruct s.
  - now destruct s.
Qed.

Lemma shaped_add (K : list pystr) (dd : dict pyset) (k x : pystr) :
  shaped K dd -> In k K -> shaped K (defaultdict_add dd k x).
Proof.
  intros [Hk Hv] Hin. unfold defaultdict_add. split.
  - now apply dict_keys_set_NoDup.
  - intros k' v. destruct (str_eq_dec k' k) as [->|Hne].
    + rewrite dict_get_set_same. intros [= <-].
      split; [apply set_add_nonempty|]. split; [|assumption].
      apply set_add_NoDup. unfold dict_get_or.
      destruct (dict_get dd k) as [v|] eqn:E; [|constructor].
      now apply Hv in E.
    + rewrite dict_get_set_other by assumption. apply Hv.
Qed.

Lemma shaped_link_dep (K keys : list pystr) (dd : dict pyset)
    (app_name dep : pystr) :
  incl keys K -> shaped K dd -> shaped K (link_dep keys dd app_name dep).
Proof.
  induction keys as [|k keys IH]; simpl; intros Hi Hs; [assumption|].
  destruct (matches k dep).
  - apply shaped_add; [assumption|]. apply Hi. now left.
  - apply IH; [|assumption]. intros x Hx. apply Hi. now right.
Qed.

Lemma shaped_link_deps (K : list pystr) (deps : list pystr)
    (dd : dict pyset) (app_name : pystr) :
  shaped K dd ->
  shaped K (fold_left (fun dd dep => link_dep K dd app_name dep) deps dd).
Proof.
  revert dd. induction deps as [|d deps IH]; simpl; intros dd Hs;
    [assumption|].
  apply IH. now apply shaped_link_dep; [apply incl_refl|].
Qed.

Lemma parse_lines_shaped (lines : list pystr) :
  shaped (dict_keys (fst (parse_lines lines))) (snd (parse_lines lines)).
Proof.
  induction lines as [|l lines IH] using rev_ind.
  - split; [constructor|]. intros k v. discriminate.
  - rewrite parse_lines_snoc. unfold parse_line.
    destruct (line_fields l) as [[n d]|]; [|exact IH].
    destruct (parse_lines lines) as [apps dd]. rewrite register_eq.
    simpl fst in *. simpl snd in *. apply shaped_link_deps.
    destruct IH as [Hk Hv]. split; [assumption|].
    intros k v E. apply Hv in E. destruct E as (H1 & H2 & H3).
    repeat split; try assumption. apply dict_keys_set_In. now right.
Qed.

Lemma sort_values_keys (O : set_order) (dd : dict pyset) :
  dict_keys (sort_values O dd) = dict_keys dd.
Proof.
  unfold dict_keys, sort_values. rewrite map_map. now apply map_ext.
Qed.

Lemma sort_values_lookup (O : set_order) (dd : dict pyset) (k : pystr) :
  dict_get (sort_values O dd) k
  = match dict_get dd k with
    | Some v => Some (sorted v)
    | None => None
    end.
Proof.
  unfold sort_values. induction dd as [|[k' v] dd IH]; simpl; [reflexivity|].
  destruct (str_eq_dec k' k); [|exact IH]. now rewrite sorted_set_iter.
Qed.

End DependentsShape.

(** X4.  The [dependents] mapping the parser returns has one entry for each
    identifier that has a child and none for the others: its keys are
    distinct registered identifiers, and each list of children is non-empty,
    free of repeats, in sorted order, and made of registered identifiers. *)
Theorem dependents_shape (O : set_order) (file_lines : list pystr) :
  let g := parse_clusterapps O file_lines in
  NoDup (dict_keys (snd g)) /\
  forall parent children,
    dict_get (snd g) parent = Some children ->
    children <> [] /\ NoDup children /\ Sorted str_le children /\
    In parent (dict_keys (fst g)) /\
    forall child, In child children -> In child (dict_keys (fst g)).
Proof.
  intros g. subst g. rewrite parse_clusterapps_fst, parse_clusterapps_snd.
  destruct (parse_lines_shaped file_lines) as [Hk Hv]. split.
  - now rewrite sort_values_keys.
  - intros parent children. rewrite sort_values_lookup.
    destruct (dict_get (snd (parse_lines file_lines)) parent) as [v|] eqn:E;
      [|discriminate].
    intros [= <-]. destruct (Hv _ _ E) as (Hne & Hnd & Hin).
    split.
    { intros H. apply Hne. apply Permutation_nil.
      rewrite <- H. apply sorted_perm. }
    split.
    { apply (Permutation_NoDup (Permutation_sym (sorted_perm v)) Hnd). }
    split; [apply sorted_Sorted|]. split; [assumption|].
    intros child Hc. rewrite sorted_In in Hc.
    apply (parse_lines_children_registered file_lines parent child).
    unfold dict_get_or. now rewrite E.
Qed.

Section RootsShape.

Lemma dict_get_of_In {V} (d : dict V) (k : pystr) (v : V) :
  NoDup (dict_keys d) -> In (k, v) d -> dict_get d k = Some v.
Proof.
  unfold dict_keys. induction d as [|[k' v'] d IH]; simpl; [tauto|].
  intros Hnd [E|Hin].
  - injection E as -> ->. now destruct (str_eq_dec k k).
  - inversion Hnd; subst. destruct (str_eq_dec k' k) as [->|Hne].
    + exfalso. apply H1. now apply (in_map fst) in Hin.
    + now apply IH.
Qed.

Lemma filter_keys_NoDup {V} (keep : pystr * V -> bool) (d : dict V) :
  NoDup (dict_keys d) -> NoDup (dict_keys (filter keep d)).
Proof.
  unfold dict_keys. induction d as [|[k v] d IH]; simpl; intros Hnd;
    [constructor|].
  apply NoDup_cons_iff in Hnd. destruct Hnd as [Hk Hd].
  destruct (keep (k, v)); simpl; [|now apply IH].
  constructor; [|now apply IH].
  rewrite in_map_iff. intros ([k' v'] & Ek & Hin). simpl in Ek. subst k'.
  apply filter_In in Hin. destruct Hin as [Hin _]. apply Hk.
  now apply (in_map fst) in Hin.
Qed.

End RootsShape.

(** X5.  On a dictionary, [find_roots] returns the keys whose parent list is
    empty, each once and in sorted order. *)
Theorem find_roots_spec (apps : dict (list pystr)) :
  NoDup (dict_keys apps) ->
  (forall x, In x (find_roots apps) <-> dict_get apps x = Some []) /\
  NoDup (find_roots apps) /\
  Sorted str_le (find_roots apps).
Proof.
  intros Hnd. unfold find_roots. split; [|split].
  - intros x. rewrite sorted_In, in_map_iff. split.
    + intros ([k v] & <- & Hin). apply filter_In in Hin.
      destruct Hin as [Hin Hv]. simpl in *.
      destruct v; [|discriminate]. now apply dict_get_of_In.
    + intros E. apply dict_get_In in E. exists (x, []).
      split; [reflexivity|]. apply filter_In. now split.
  - apply (Permutation_NoDup (Permutation_sym (sorted_perm _))).
    now apply filter_keys_NoDup.
  - apply sorted_Sorted.
Qed.

Lemma find_roots_spec_witness :
  let apps := [(lit "b", [lit "a"]); (lit "c", []); (lit "a", [])] in
  (In (lit "c") (find_roots apps) <-> dict_get apps (lit "c") = Some []) /\
  NoDup (find_roots apps).
Proof.
  intros apps.
  destruct (find_roots_spec apps) as (H1 & H2 & _).
  - unfold apps. simpl. repeat constructor; simpl; intuition discriminate.
  - split; [apply H1|exact H2].
Defined.

(** * Further properties of the traversal *)

Section QueueLoop.

Variable dependents : dict (list pystr).

Lemma enqueue_keeps (processed : pyset) (children queue : list pystr)
    (x : pystr) :
  In x queue -> In x (enqueue processed queue children).
Proof.
  unfold enqueue. revert queue.
  induction children as [|c cs IH]; simpl; intros queue Hx; [assumption|].
  apply IH. destruct (negb (mem c processed) && negb (mem c queue));
    [apply in_or_app; now left|assumption].
Qed.

Lemma enqueue_covers (processed : pyset) (children queue : list pystr)
    (c : pystr) :
  In c children ->
  In c processed \/ In c (enqueue processed queue children).
Proof.
  unfold enqueue. revert queue.
  induction children as [|c' cs IH]; simpl; intros queue; [tauto|].
  intros [->|Hc]; [|now apply IH].
  destruct (mem c processed) eqn:Ep; [left; now apply mem_true|].
  right. destruct (mem c queue) eqn:Eq; simpl.
  - apply enqueue_keeps. now apply mem_true.
  - apply enqueue_keeps. apply in_or_app. right. now left.
Qed.

Lemma bfs_loop_more_fuel (fuel : nat) :
  forall queue processed chain_apps r,
    bfs_loop fuel dependents queue processed chain_apps = Some r ->
    bfs_loop (S fuel) dependents queue processed chain_apps = Some r.
Proof.
  induction fuel as [|fuel IH]; intros [|app queue] processed chain_apps r;
    try (simpl; congruence).
  intros E. simpl in E. change (bfs_loop (S (S fuel)) dependents (app :: queue)
                                 processed chain_apps)
    with (if mem app processed
          then bfs_loop (S fuel) dependents queue processed chain_apps
          else bfs_loop (S fuel) dependents
                 (enqueue (set_add app processed) queue
                          (dict_get_or dependents app []))
                 (set_add app processed) (chain_apps ++ [app])).
  destruct (mem app processed); now apply IH.
Qed.

Lemma bfs_loop_fuel_le (fuel fuel' : nat) :
  fuel <= fuel' ->
  forall queue processed chain_apps r,
    bfs_loop fuel dependents queue processed chain_apps = Some r ->
    bfs_loop fuel' dependents queue processed chain_apps = Some r.
Proof.
  induction 1; intros; [assumption|].
  now apply bfs_loop_more_fuel, IHle.
Qed.

(** Members that join the chain follow one of their parents. *)
Lemma bfs_loop_led (fuel : nat) :
  forall queue processed chain_apps chain_apps' processed',
    bfs_loop fuel dependents queue processed chain_apps
    = Some (chain_apps', processed') ->
    (forall q, In q queue ->
       exists p, In p chain_apps /\ In q (dict_get_or dependents p [])) ->
    exists new,
      chain_apps' = chain_apps ++ new /\
      forall before m after,
        new = before ++ m :: after ->
        exists p,
          In p (chain_apps ++ before) /\ In m (dict_get_or dependents p []).
Proof.
  induction fuel as [|fuel IH];
    intros [|app queue] processed chain_apps chain_apps' processed' E HQ;
    simpl in E; try discriminate.
  1, 2: injection E as <- <-; exists []; rewrite app_nil_r;
    split; [reflexivity|]; intros [|? ?] ? ? ?; discriminate.
  destruct (mem app processed) eqn:Em.
  - apply IH in E; [assumption|]. intros q Hq. apply HQ. now right.
  - apply IH in E.
    + destruct E as (new & -> & Hnew). exists (app :: new).
      rewrite <- app_assoc. split; [reflexivity|].
      intros [|b before] m after Eq; simpl in Eq; injection Eq as <- Eq.
      * rewrite app_nil_r. apply HQ. now left.
      * destruct (Hnew _ _ _ Eq) as (p & Hp & Hm). exists p.
        split; [|assumption]. rewrite <- app_assoc in Hp. exact Hp.
    + intros q Hq. apply enqueue_In in Hq. destruct Hq as [Hq|Hq].
      * destruct (HQ q (or_intror Hq)) as (p & Hp & Hm).
        exists p. split; [apply in_or_app; now left|assumption].
      * exists app. split; [apply in_or_app; right; now left|assumption].
Qed.

(** When the loop ends, the processed set holds the queue it started from
    and the children of each of its members. *)
Lemma bfs_loop_closed (fuel : nat) :
  forall queue processed chain_apps chain_apps' processed',
    bfs_loop fuel dependents queue processed chain_apps
    = Some (chain_apps', processed') ->
    (forall x c, In x processed -> In c (dict_get_or dependents x []) ->
       In c processed \/ In c queue) ->
    closed dependents processed' /\
    (forall x, In x processed -> In x processed') /\
    (forall q, In q queue -> In q processed').
Proof.
  induction fuel as [|fuel IH];
    intros [|app queue] processed chain_apps chain_apps' processed' E HC;
    simpl in E; try discriminate.
  1, 2: injection E as <- <-; split; [|split; [tauto|intros q []]];
    intros x c Hx Hc; destruct (HC x c Hx Hc) as [H|[]]; exact H.
  destruct (mem app processed) eqn:Em.
  - apply mem_true in Em. apply IH in E.
    + destruct E as (H1 & H2 & H3). repeat split; try assumption.
      intros q [<-|Hq]; [now apply H2|now apply H3].
    + intros x c Hx Hc. destruct (HC x c Hx Hc) as [H|[<-|H]]; tauto.
  - apply IH in E.
    + destruct E as (H1 & H2 & H3). repeat split; try assumption.
      * intros x Hx. apply H2, set_add_In. now right.
      * intros q [<-|Hq]; [apply H2, set_add_In; now left|].
        apply H3. now apply enqueue_keeps.
    + intros x c Hx Hc. apply set_add_In in Hx. destruct Hx as [->|Hx].
      * now apply enqueue_covers.
      * destruct (HC x c Hx Hc) as [H|[<-|H]].
        -- left. apply set_add_In. now right.
        -- left. apply set_add_In. now left.
        -- right. now apply enqueue_keeps.
Qed.

End QueueLoop.

(** X6.  The queue loop ends on every [dependents] mapping, cyclic ones
    included: it pops at most as many entries as the queue holds plus the
    children listed under identifiers not processed yet, and any larger
    budget of pops gives the same chain and processed set. *)
Theorem bfs_loop_pops_bound (dependents : dict (list pystr))
    (queue : list pystr) (processed : pyset) (chain_apps : list pystr) :
  exists result,
    forall fuel,
      length queue + pending dependents processed <= fuel ->
      bfs_loop fuel dependents queue processed chain_apps = Some result.
Proof.
  destruct (bfs_loop_terminates dependents
              (length queue + pending dependents processed)
              queue processed chain_apps (le_n _)) as [r E].
  exists r. intros fuel Hle.
  now apply (bfs_loop_fuel_le dependents _ fuel Hle).
Qed.

Lemma bfs_loop_pops_bound_witness :
  let dependents := [(lit "a", [lit "b"; lit "c"]); (lit "b", [lit "a"]);
                     (lit "c", [lit "c"; lit "b"])] in
  bfs_loop 6 dependents [lit "a"] [] []
  = Some ([lit "a"; lit "b"; lit "c"], [lit "a"; lit "b"; lit "c"]) /\
  bfs_loop 60 dependents [lit "a"] [] []
  = Some ([lit "a"; lit "b"; lit "c"], [lit "a"; lit "b"; lit "c"]).
Proof.
  intros dependents.
  destruct (bfs_loop_pops_bound dependents [lit "a"] [] []) as [r Hr].
  assert (E6 := Hr 6). assert (E60 := Hr 60).
  rewrite E6, E60 by (vm_compute; lia).
  assert (E : bfs_loop 6 dependents [lit "a"] [] []
              = Some ([lit "a"; lit "b"; lit "c"],
                      [lit "a"; lit "b"; lit "c"])) by reflexivity.
  rewrite E6 in E by (vm_compute; lia). now rewrite E.
Defined.

Section RootLoopShape.

Variables apps dependents : dict (list pystr).

(** The walk from one root: nothing if the root was processed before, else
    a chain headed by the root. *)
Lemma root_walk_shape (fuel : nat) (root : pystr) (processed : pyset)
    (chain : list pystr) (processed' : pyset) :
  bfs_loop fuel dependents [root] processed [] = Some (chain, processed') ->
  (In root processed /\ chain = [])
  \/ (~ In root processed /\
      exists rest, chain = root :: rest /\ led_by_parents dependents chain).
Proof.
  destruct fuel as [|fuel]; simpl; [discriminate|].
  destruct (mem root processed) eqn:Em.
  - apply mem_true in Em. destruct fuel; simpl; intros [= <- _]; now left.
  - apply mem_false in Em. intros E. right. split; [assumption|].
    apply bfs_loop_led in E.
    + destruct E as (new & -> & Hnew). exists new. split; [reflexivity|].
      intros [|b before] m after Eq Hne; [congruence|].
      simpl in Eq. injection Eq as <- Eq.
      exact (Hnew _ _ _ Eq).
    + intros q Hq. apply enqueue_In in Hq. destruct Hq as [[]|Hq].
      exists root. split; [now left|assumption].
Qed.

Lemma root_chain_shape (st st' : assembly) (root_idx : nat) (root : pystr) :
  root_chain apps dependents st root_idx root = Some st' ->
  closed dependents (processed st) ->
  exists chain,
    chains st' = chains st ++ [chain] /\
    ((In root (processed st) /\ chain = [])
     \/ (~ In root (processed st) /\
         exists rest,
           chain = root :: rest /\ led_by_parents dependents chain)) /\
    closed dependents (processed st') /\
    In root (processed st') /\
    (forall x, In x (processed st) -> In x (processed st')).
Proof.
  unfold root_chain.
  destruct (bfs_loop _ _ _ _ _) as [[chain processed']|] eqn:E;
    [|discriminate].
  intros [= <-] Hcl. simpl. exists chain. split; [reflexivity|].
  split; [now apply (root_walk_shape _ _ _ _ _ E)|].
  apply bfs_loop_closed in E.
  - destruct E as (H1 & H2 & H3). repeat split; try assumption.
    apply H3. now left.
  - intros x c Hx Hc. left. now apply (Hcl x c).
Qed.

Lemma root_chains_shape (roots : list pystr) :
  forall st root_idx,
    chains_inv (fun _ => True) st ->
    closed dependents (processed st) ->
    exists st' chains',
      root_chains apps dependents st root_idx roots = Some st' /\
      chains st' = chains st ++ chains' /\
      chains_of dependents (concat (chains st)) roots chains' /\
      chains_inv (fun _ => True) st' /\
      closed dependents (processed st') /\
      (forall x, In x (processed st) -> In x (processed st')) /\
      (forall root, In root roots -> In root (processed st')).
Proof.
  induction roots as [|root roots IH]; intros st root_idx Hinv Hcl; simpl.
  - exists st, []. rewrite app_nil_r.
    repeat split; try assumption; try constructor; try tauto; apply Hinv.
  - destruct (root_chain_returns apps dependents st root_idx root)
      as [st1 E1].
    rewrite E1.
    assert (Hinv1 : chains_inv (fun _ => True) st1).
    { apply (root_chain_inv apps dependents (fun _ => True)
               (fun _ _ _ => I) st st1 root_idx root E1 I Hinv). }
    destruct (root_chain_shape st st1 root_idx root E1 Hcl)
      as (chain & Ech & Hshape & Hcl1 & Hroot & Hmono).
    destruct (IH st1 (S root_idx) Hinv1 Hcl1)
      as (st' & chains' & E & Ech' & Hof & Hinv' & Hcl' & Hmono' & Hroots).
    exists st', (chain :: chains'). rewrite E.
    split; [reflexivity|].
    split; [rewrite Ech', Ech, <- app_assoc; reflexivity|].
    split.
    { rewrite Ech, concat_app in Hof. simpl in Hof.
      rewrite app_nil_r in Hof.
      destruct Hinv as (_ & Hsame & _).
      destruct Hshape as [[Hin ->]|[Hnin (rest & -> & Hled)]].
      - rewrite app_nil_r in Hof. apply chains_skip; [|assumption].
        now apply Hsame.
      - apply chains_walk; try assumption.
        intros Hin. apply Hnin. now apply Hsame. }
    split; [assumption|]. split; [assumption|].
    split; [intros x Hx; now apply Hmono', Hmono|].
    intros r [<-|Hr]; [now apply Hmono'|now apply Hroots].
Qed.

Lemma chains_of_length (seen roots : list pystr)
    (chains : list (list pystr)) :
  chains_of dependents seen roots chains -> length chains = length roots.
Proof. induction 1; simpl; congruence. Qed.

Lemma led_by_parents_reach (root : pystr) (rest : list pystr) :
  led_by_parents dependents (root :: rest) ->
  forall x, In x (root :: rest) -> reach dependents root x.
Proof.
  intros Hled.
  assert (G : forall n before m after,
            length before < n -> root :: rest = before ++ m :: after ->
            reach dependents root m).
  { induction n as [|n IH]; intros before m after Hlen E; [lia|].
    destruct before as [|b before].
    - injection E as <- _. constructor.
    - destruct (Hled (b :: before) m after E) as (p & Hp & Hm);
        [discriminate|].
      apply in_split in Hp. destruct Hp as (b1 & b2 & Eb).
      apply (reach_child dependents root p m); [|assumption].
      apply (IH b1 p (b2 ++ m :: after)).
      + apply (f_equal (@length pystr)) in Eb.
        rewrite length_app in Eb. simpl in *. lia.
      + rewrite E, Eb, <- app_assoc. reflexivity. }
  intros x Hx. apply in_split in Hx. destruct Hx as (b & a & E).
  now apply (G (S (length b)) b x a); [lia|].
Qed.

Lemma closed_reach (processed : pyset) (root x : pystr) :
  closed dependents processed -> In root processed ->
  reach dependents root x -> In x processed.
Proof.
  intros Hcl Hroot. induction 1; [assumption|].
  now apply (Hcl parent child).
Qed.

Lemma chains_of_reach (seen roots : list pystr)
    (chains : list (list pystr)) (x : pystr) :
  chains_of dependents seen roots chains ->
  In x (concat chains) ->
  exists root, In root roots /\ reach dependents root x.
Proof.
  induction 1 as [|seen root roots chains Hin _ IH
                  |seen root rest roots chains Hnin Hled _ IH]; simpl.
  - tauto.
  - intros Hx. destruct (IH Hx) as (r & Hr & Hreach).
    exists r. split; [now right|assumption].
  - intros [E|Hx].
    + exists root. split; [now left|]. rewrite <- E. constructor.
    + apply in_app_or in Hx. destruct Hx as [Hx|Hx].
      * exists root. split; [now left|].
        apply (led_by_parents_reach root rest Hled). now right.
      * destruct (IH Hx) as (r & Hr & Hreach).
        exists r. split; [now right|assumption].
Qed.

End RootLoopShape.

Lemma root_sections_shape (apps dependents : dict (list pystr)) :
  exists st,
    root_sections apps dependents = Some st /\
    chains_of dependents [] (find_roots apps) (chains st) /\
    chains_inv (fun _ => True) st /\
    closed dependents (processed st) /\
    (forall root, In root (find_roots apps) -> In root (processed st)).
Proof.
  unfold root_sections.
  destruct (root_chains_shape apps dependents (find_roots apps)
              {| lines := title; processed := []; chains := [] |} 0)
    as (st & chains' & E & Ech & Hof & Hinv & Hcl & _ & Hroots).
  - repeat split; simpl; try constructor; tauto.
  - intros x c [].
  - simpl in Ech, Hof. rewrite <- Ech in Hof. now exists st.
Qed.

(** X7.  The traversal yields one chain per root, in the order of the roots.
    The chain of a root that an earlier chain holds already is empty; every
    other chain starts with its root, and each later member of a chain is a
    child of a member that comes before it in that chain. *)
Theorem chains_follow_roots (O : set_order)
    (apps dependents : dict (list pystr)) :
  exists chains remainder,
    chain_traversal O apps dependents = Some (chains, remainder) /\
    length chains = length (find_roots apps) /\
    chains_of dependents [] (find_roots apps) chains.
Proof.
  unfold chain_traversal.
  destruct (root_sections_shape apps dependents) as (st & -> & Hof & _).
  exists (chains st), (orphans O apps (processed st)).
  split; [reflexivity|]. split; [|assumption].
  now apply (chains_of_length dependents [] _ _).
Qed.

(** X8.  The chains hold the identifiers that can be reached from a root
    along the children lists, and nothing else; the remainder holds the
    registered identifiers that cannot. *)
Theorem chains_are_the_reachable (O : set_order)
    (apps dependents : dict (list pystr)) :
  exists chains remainder,
    chain_traversal O apps dependents = Some (chains, remainder) /\
    (forall x,
       In x (concat chains)
       <-> exists root,
             In root (find_roots apps) /\ reach dependents root x) /\
    (forall x,
       In x remainder
       <-> In x (dict_keys apps) /\
           ~ exists root,
               In root (find_roots apps) /\ reach dependents root x).
Proof.
  unfold chain_traversal.
  destruct (root_sections_shape apps dependents)
    as (st & -> & Hof & (_ & Hsame & _) & Hcl & Hroots).
  exists (chains st), (orphans O apps (processed st)).
  split; [reflexivity|].
  assert (G : forall x,
            In x (concat (chains st))
            <-> exists root,
                  In root (find_roots apps) /\ reach dependents root x).
  { intros x. split.
    - now apply (chains_of_reach dependents [] _ _).
    - intros (root & Hr & Hreach). apply Hsame.
      apply (closed_reach dependents _ root x Hcl); [|assumption].
      now apply Hroots. }
  split; [exact G|].
  intros x. rewrite orphans_In, <- G, <- Hsame. tauto.
Qed.

(** * Further properties of the renderer and of the normalizer *)

(** X9.  A block has three lines for the parents, if there are any, three
    for the box, and then one line when there are no children, or three
    connector lines and one line per child.  The middle line of the box is
    never as wide as its borders: with "[ROOT]" it is the larger of 52 and
    the displayed length plus 10, without it the larger of 49 and the
    displayed length plus 3, against the larger of 50 and the displayed
    length plus 4 for the borders. *)
Theorem block_size (apps dependents : dict (list pystr)) (app_name : pystr) :
  let deps := dict_get_or apps app_name [] in
  let children := dict_get_or dependents app_name [] in
  let shown := length (firstn 60 app_name) in
  let block := draw_app_block apps dependents app_name in
  let middle := nth (if truthy deps then 4 else 1) block [] in
  length block
  = (if truthy deps then 3 else 0) + 3
    + (if truthy children then 3 + length children else 1) /\
  length middle
  = (if truthy deps then Nat.max 49 (shown + 3)
     else Nat.max 52 (shown + 10)) /\
  length middle <> Nat.max 50 (shown + 4) /\
  shown <= 60.
Proof.
  intros deps children shown block middle.
  assert (Hshown : shown <= 60).
  { unfold shown. rewrite length_firstn. apply Nat.le_min_l. }
  assert (Hmid : length middle
                 = if truthy deps then Nat.max 49 (shown + 3)
                   else Nat.max 52 (shown + 10)).
  { unfold middle, block, draw_app_block. fold deps. fold children.
    destruct deps as [|d deps']; destruct children as [|c cs];
      cbn [truthy length Nat.eqb app nth];
      rewrite !length_app; unfold times; rewrite repeat_length;
      fold shown; change (length (lit "│ ")) with 2;
      change (length (lit "│")) with 1;
      try change (length (lit " [ROOT]")) with 7; lia. }
  split; [|split; [exact Hmid|split; [|exact Hshown]]].
  - unfold block, draw_app_block. fold deps. fold children.
    destruct deps as [|d deps']; destruct children as [|c cs];
      cbn [truthy length Nat.eqb app];
      rewrite ?length_app; cbn [length];
      rewrite ?child_lines_length; simpl; lia.
  - rewrite Hmid. destruct (truthy deps); lia.
Qed.

Section NormalizerShape.

Lemma version_suffix_app (s more : pystr) :
  version_suffix s -> version_suffix (s ++ more).
Proof.
  intros (d1 & d2 & d3 & rest & G1 & G2 & G3 & ->).
  exists d1, d2, d3, (rest ++ more). repeat split; try apply G1;
    try apply G2; try apply G3.
  simpl. rewrite <- !app_assoc. simpl. rewrite <- !app_assoc. simpl.
  now rewrite <- !app_assoc.
Qed.

Lemma one_line_tail (c : char) (s : pystr) : one_line (c :: s) -> one_line s.
Proof. unfold one_line. simpl. tauto. Qed.

(** On one line the substitution either cuts at the leftmost version suffix
    or finds none. *)
Lemma re_sub_version_cases (s : pystr) :
  one_line s ->
  (exists p suf,
     s = p ++ suf /\ version_suffix suf /\ leftmost p suf /\
     re_sub_version s = p)
  \/ ((forall p suf, s = p ++ suf -> ~ version_suffix suf) /\
      re_sub_version s = s).
Proof.
  induction s as [|c s IH]; intros Hl.
  - right. split; [|reflexivity].
    intros p suf E Hv. symmetry in E. apply app_eq_nil in E.
    destruct E as [_ ->].
    destruct Hv as (? & ? & ? & ? & _ & _ & _ & ?). discriminate.
  - simpl. destruct (match_version (c :: s)) as [t|] eqn:Em.
    + left. pose proof (match_version_sound _ _ Em) as Hv.
      rewrite (match_version_complete _ Hv Hl) in Em. injection Em as <-.
      exists [], (c :: s). repeat split; try assumption.
      intros p' suf' _ _. simpl. lia.
    + destruct (IH (one_line_tail _ _ Hl))
        as [(p & suf & -> & Hv & Hm & ->)|[Hn ->]].
      * left. exists (c :: p), suf. repeat split; try assumption.
        intros [|c' p'] suf' E Hv'; simpl in E.
        -- subst suf'. rewrite (match_version_complete _ Hv' Hl) in Em.
           discriminate.
        -- injection E as <- E. simpl. apply le_n_S. now apply (Hm p' suf').
      * right. split; [|reflexivity]. intros [|c' p] suf E Hv; simpl in E.
        -- subst suf. rewrite (match_version_complete _ Hv Hl) in Em.
           discriminate.
        -- injection E as <- E. now apply (Hn p suf).
Qed.

End NormalizerShape.

(** X10.  On an identifier, which is on one line, the base name is a prefix
    of the identifier, holds no version suffix any more, and is its own base
    name. *)
Theorem get_base_name_idempotent (s : pystr) :
  one_line s ->
  (exists cut, s = get_base_name s ++ cut) /\
  (forall p suf, get_base_name s = p ++ suf -> ~ version_suffix suf) /\
  get_base_name (get_base_name s) = get_base_name s.
Proof.
  intros Hl.
  assert (G : forall p suf, get_base_name s = p ++ suf -> ~ version_suffix suf).
  { unfold get_base_name.
    destruct (re_sub_version_cases s Hl)
      as [(p & suf & -> & Hv & Hm & ->)|[Hn ->]]; [|exact Hn].
    intros p1 p2 -> Hv2.
    specialize (Hm p1 (p2 ++ suf)). rewrite <- app_assoc in Hm.
    specialize (Hm eq_refl (version_suffix_app _ _ Hv2)).
    rewrite length_app in Hm. destruct p2 as [|c p2]; [|simpl in Hm; lia].
    destruct Hv2 as (? & ? & ? & ? & _ & _ & _ & ?). discriminate. }
  split; [|split; [exact G|now apply get_base_name_identity]].
  unfold get_base_name.
  destruct (re_sub_version_cases s Hl)
    as [(p & suf & -> & _ & _ & ->)|[_ ->]].
  - now exists suf.
  - exists []. now rewrite app_nil_r.
Qed.

Lemma get_base_name_idempotent_witness :
  get_base_name (get_base_name (lit "kube-1.2-stack-70.4.2-rc1-0.0.1"))
  = get_base_name (lit "kube-1.2-stack-70.4.2-rc1-0.0.1").
Proof.
  apply (get_base_name_idempotent (lit "kube-1.2-stack-70.4.2-rc1-0.0.1")).
  unfold one_line. vm_compute. intuition discriminate.
Defined.

Example base_name_twice_across_lines :
  get_base_name (lit "-1.2.3" ++ [LF] ++ lit "-4.5.6") = lit "-1.2.3" ++ [LF]
  /\ get_base_name (lit "-1.2.3" ++ [LF]) = [LF].
Proof. split; reflexivity. Qed.

(** * The record file *)

Section StripAlgebra.

Lemma lstrip_stop (a : pystr) (c : char) (b : pystr) :
  is_space c = false -> lstrip (a ++ c :: b) = lstrip a ++ c :: b.
Proof.
  intros Hc. induction a as [|x a IH]; simpl.
  - now rewrite Hc.
  - destruct (is_space x); [exact IH|reflexivity].
Qed.

Lemma rstrip_stop (a : pystr) (c : char) (b : pystr) :
  is_space c = false -> rstrip (a ++ c :: b) = a ++ c :: rstrip b.
Proof.
  intros Hc. unfold rstrip. rewrite rev_app_distr. simpl.
  rewrite <- app_assoc. simpl. rewrite (lstrip_stop _ _ _ Hc).
  rewrite rev_app_distr. simpl. rewrite rev_involutive.
  now rewrite <- app_assoc.
Qed.

Lemma rstrip_space (s : pystr) (c : char) :
  is_space c = true -> rstrip (s ++ [c]) = rstrip s.
Proof.
  intros Hc. unfold rstrip. rewrite rev_app_distr. simpl. now rewrite Hc.
Qed.

Lemma lstrip_spaces (a : pystr) :
  Forall (fun c => is_space c = true) a -> lstrip a = [].
Proof. induction 1 as [|c a Hc _ IH]; simpl; [easy|now rewrite Hc]. Qed.

Lemma rstrip_spaces (a : pystr) :
  Forall (fun c => is_space c = true) a -> rstrip a = [].
Proof.
  intros Ha. unfold rstrip. rewrite lstrip_spaces; [reflexivity|].
  now apply Forall_rev.
Qed.

Lemma spaces_or_first (s : pystr) :
  Forall (fun c => is_space c = true) s
  \/ exists a c b,
       s = a ++ c :: b /\ Forall (fun c => is_space c = true) a /\
       is_space c = false.
Proof.
  induction s as [|x s IH]; [left; constructor|].
  destruct (is_space x) eqn:Ex.
  - destruct IH as [IH|(a & c & b & -> & Ha & Hc)].
    + left. now constructor.
    + right. exists (x :: a), c, b. repeat split; [constructor|]; assumption.
  - right. exists [], x, s. repeat split; [constructor|assumption].
Qed.

Lemma lstrip_rstrip (s : pystr) : lstrip (rstrip s) = rstrip (lstrip s).
Proof.
  destruct (spaces_or_first s) as [Hs|(a & c & b & -> & Ha & Hc)].
  - now rewrite (lstrip_spaces s Hs), (rstrip_spaces s Hs).
  - rewrite (rstrip_stop _ _ _ Hc), !(lstrip_stop _ _ _ Hc).
    rewrite (lstrip_spaces a Ha). simpl.
    symmetry. exact (rstrip_stop [] c b Hc).
Qed.

Lemma lstrip_twice (s : pystr) : lstrip (lstrip s) = lstrip s.
Proof.
  destruct (spaces_or_first s) as [Hs|(a & c & b & -> & Ha & Hc)].
  - now rewrite (lstrip_spaces s Hs).
  - rewrite (lstrip_stop _ _ _ Hc), (lstrip_spaces a Ha). simpl.
    now rewrite Hc.
Qed.

Lemma rstrip_twice (s : pystr) : rstrip (rstrip s) = rstrip s.
Proof.
  unfold rstrip. rewrite rev_involutive. now rewrite lstrip_twice.
Qed.

Lemma strip_lstrip (s : pystr) : strip (lstrip s) = strip s.
Proof. unfold strip. now rewrite lstrip_twice. Qed.

Lemma strip_rstrip (s : pystr) : strip (rstrip s) = strip s.
Proof. unfold strip. now rewrite lstrip_rstrip, rstrip_twice. Qed.

Lemma lstrip_incl (s : pystr) : incl (lstrip s) s.
Proof.
  destruct (lstrip_suffix s) as [a E]. intros x Hx. rewrite E.
  apply in_or_app. now right.
Qed.

Lemma rstrip_incl (s : pystr) : incl (rstrip s) s.
Proof.
  destruct (rstrip_prefix s) as [b E]. intros x Hx. rewrite E.
  apply in_or_app. now left.
Qed.

Lemma split_nonempty (sep : char) (s : pystr) : split sep s <> [].
Proof.
  destruct s as [|c s]; simpl; [discriminate|].
  destruct (c =? sep)%N; [discriminate|].
  destruct (split sep s); discriminate.
Qed.

Lemma split_first (sep : char) (x y : pystr) :
  ~ In sep x -> split sep (x ++ sep :: y) = x :: split sep y.
Proof.
  induction x as [|c x IH]; simpl; intros Hx.
  - now rewrite N.eqb_refl.
  - destruct (N.eqb_spec c sep) as [->|_]; [tauto|].
    rewrite IH by tauto. reflexivity.
Qed.

Lemma split_none (sep : char) (x : pystr) :
  ~ In sep x -> split sep x = [x].
Proof.
  induction x as [|c x IH]; simpl; intros Hx; [reflexivity|].
  destruct (N.eqb_spec c sep) as [->|_]; [tauto|].
  rewrite IH by tauto. reflexivity.
Qed.

Lemma first_occurrence (c : char) (s : pystr) :
  In c s -> exists a b, s = a ++ c :: b /\ ~ In c a.
Proof.
  induction s as [|x s IH]; simpl; [tauto|].
  destruct (N.eq_dec x c) as [->|Hne].
  - intros _. exists [], s. now split.
  - intros [E|H]; [congruence|].
    destruct (IH H) as (a & b & -> & Ha). exists (x :: a), b.
    split; [reflexivity|]. simpl. tauto.
Qed.

(** The first field of a text and of the same text stripped on the right
    are the same, up to stripping. *)
Lemma first_field_rstrip (d : pystr) :
  strip (hd [] (split BAR (rstrip d))) = strip (hd [] (split BAR d)).
Proof.
  destruct (in_dec N.eq_dec BAR d) as [Hin|Hn].
  - destruct (first_occurrence BAR d Hin) as (a & b & -> & Ha).
    rewrite (rstrip_stop a BAR b eq_refl).
    now rewrite !(split_first BAR a _ Ha).
  - rewrite (split_none BAR d Hn).
    rewrite (split_none BAR (rstrip d));
      [|intros H; now apply Hn, rstrip_incl].
    simpl. apply strip_rstrip.
Qed.

End StripAlgebra.

Section RecordLines.

(** The fields of the line written for any name without a bar. *)
Lemma line_fields_written (n d : pystr) (ending : pystr) :
  ~ In BAR n -> (ending = [] \/ ending = [LF]) ->
  line_fields (n ++ BAR :: d ++ ending)
  = Some (strip n, strip (hd [] (split BAR d))).
Proof.
  intros Hn Hend. unfold line_fields.
  assert (E : strip (n ++ BAR :: d ++ ending) = lstrip n ++ BAR :: rstrip d).
  { unfold strip. rewrite (lstrip_stop n BAR _ eq_refl).
    rewrite (rstrip_stop (lstrip n) BAR _ eq_refl). do 2 f_equal.
    destruct Hend as [->| ->]; [now rewrite app_nil_r|].
    now apply rstrip_space. }
  rewrite E.
  assert (Hn' : ~ In BAR (lstrip n)) by (intros H; now apply Hn, lstrip_incl).
  rewrite (split_first BAR _ _ Hn').
  destruct (lstrip n ++ BAR :: rstrip d) eqn:El;
    [now destruct (lstrip n)|]. simpl truthy. simpl negb. cbv iota.
  pose proof (split_nonempty BAR (rstrip d)) as Hs.
  destruct (split BAR (rstrip d)) as [|f fs] eqn:Es; [congruence|].
  cbn [length nth Nat.ltb Nat.leb].
  rewrite strip_lstrip. do 2 f_equal.
  change f with (hd [] (f :: fs)). rewrite <- Es.
  apply first_field_rstrip.
Qed.

Lemma readlines_line (l rest : pystr) :
  unbroken l -> readlines (l ++ [LF] ++ rest) = (l ++ [LF]) :: readlines rest.
Proof.
  intros [Hlf Hcr]. induction l as [|c l IH]; simpl.
  - reflexivity.
  - simpl in Hlf, Hcr.
    destruct (N.eqb_spec c LF) as [->|_]; [tauto|].
    destruct (N.eqb_spec c CR) as [->|_]; [tauto|].
    simpl in IH. rewrite IH by tauto. reflexivity.
Qed.

End RecordLines.

Section WrittenFile.

Lemma record_line_unbroken (item : cluster_app) :
  unbroken (metadata_name item) -> unbroken (dependency_text item) ->
  unbroken (metadata_name item ++ BAR :: dependency_text item).
Proof.
  intros [H1 H2] [H3 H4]. split; intros H; apply in_app_or in H;
    destruct H as [H|[H|H]]; try tauto; discriminate.
Qed.

Lemma record_line_eq (item : cluster_app) :
  record_line item
  = (metadata_name item ++ BAR :: dependency_text item) ++ [LF].
Proof.
  unfold record_line. change (lit "|") with [BAR].
  rewrite <- app_assoc. reflexivity.
Qed.

Lemma readlines_written (items : list cluster_app) :
  Forall (fun item => unbroken (metadata_name item) /\
                      unbroken (dependency_text item)) items ->
  readlines (written_file items) = map record_line items.
Proof.
  unfold written_file. induction 1 as [|item items [Hn Hd] _ IH]; simpl;
    [reflexivity|].
  rewrite (record_line_eq item) at 1. rewrite <- app_assoc.
  rewrite readlines_line by now apply record_line_unbroken.
  now rewrite IH, <- record_line_eq.
Qed.

Lemma record_line_fields (item : cluster_app) :
  ~ In BAR (metadata_name item) ->
  line_fields (record_line item)
  = Some (strip (metadata_name item),
          strip (hd [] (split BAR (dependency_text item)))).
Proof.
  intros Hn. unfold record_line. change (lit "|") with [BAR].
  apply (line_fields_written _ _ [LF] Hn). now right.
Qed.

Lemma dict_set_fresh {V} (d : dict V) (k : pystr) (v : V) :
  ~ In k (dict_keys d) -> dict_set d k v = d ++ [(k, v)].
Proof.
  unfold dict_keys. induction d as [|[k' v'] d IH]; simpl; intros Hn;
    [reflexivity|].
  destruct (str_eq_dec k' k) as [->|_]; [tauto|].
  rewrite IH by tauto. reflexivity.
Qed.

(** The apps that the lines of distinct items give. *)
Lemma parse_record_lines (items : list cluster_app) :
  Forall (fun item => ~ In BAR (metadata_name item)) items ->
  NoDup (map (fun item => strip (metadata_name item)) items) ->
  fst (parse_lines (map record_line items))
  = map (fun item =>
           (strip (metadata_name item),
            references (strip (hd [] (split BAR (dependency_text item))))))
        items.
Proof.
  induction items as [|item items IH] using rev_ind; intros Hbar Hnd;
    [reflexivity|].
  apply Forall_app in Hbar. destruct Hbar as [Hbar Hitem].
  inversion Hitem as [|? ? Hn _]; subst.
  rewrite !map_app in *. simpl map in *.
  rewrite parse_lines_snoc. unfold parse_line.
  rewrite (record_line_fields item Hn).
  assert (Hnd' := NoDup_remove_1 _ _ _ Hnd). rewrite app_nil_r in Hnd'.
  assert (Hfresh := NoDup_remove_2 _ _ _ Hnd). rewrite app_nil_r in Hfresh.
  specialize (IH Hbar Hnd').
  destruct (parse_lines (map record_line items)) as [apps dd].
  rewrite register_eq. simpl fst in *. subst apps.
  apply dict_set_fresh. unfold dict_keys. rewrite map_map. exact Hfresh.
Qed.

End WrittenFile.

(** X11.  The record file reads back as it was written: when no name and
    no dependency text holds a line break, the lines read from the file are
    the records written, one line per item and in the same order. *)
Theorem written_file_reads_back (items : list cluster_app) :
  Forall (fun item => unbroken (metadata_name item) /\
                      unbroken (dependency_text item)) items ->
  readlines (written_file items) = map record_line items /\
  length (readlines (written_file items)) = length items.
Proof.
  intros H. rewrite (readlines_written items H). split; [reflexivity|].
  apply length_map.
Qed.

(** X12.  The records written by [main] are never skipped by the parser.
    When the names hold no bar and no line break and the dependency texts no
    line break, each line read back from the file yields the name of its
    item, stripped, and the dependency text up to its first bar, stripped: a
    bar inside the dependency text cuts it short. *)
Theorem written_record_is_parsed (items : list cluster_app) :
  Forall (fun item => plain (metadata_name item) /\
                      unbroken (dependency_text item)) items ->
  map line_fields (readlines (written_file items))
  = map (fun item =>
           Some (strip (metadata_name item),
                 strip (hd [] (split BAR (dependency_text item)))))
        items.
Proof.
  intros Hok. rewrite readlines_written.
  - rewrite map_map. apply map_ext_in. intros item Hi.
    rewrite Forall_forall in Hok. apply Hok in Hi.
    apply record_line_fields. unfold plain in Hi. tauto.
  - apply Forall_forall. intros item Hi.
    rewrite Forall_forall in Hok. apply Hok in Hi.
    unfold plain, unbroken in *. tauto.
Qed.

(** X13.  Written, read back and parsed, a listing of items with distinct
    names gives one entry of [apps] per item, in the order of the listing:
    the stripped name with the references of its dependency text. *)
Theorem items_become_apps (O : set_order) (items : list cluster_app) :
  Forall (fun item => plain (metadata_name item) /\
                      unbroken (dependency_text item)) items ->
  NoDup (map (fun item => strip (metadata_name item)) items) ->
  fst (graph_of_items O items)
  = map (fun item =>
           (strip (metadata_name item),
            references (strip (hd [] (split BAR (dependency_text item))))))
        items.
Proof.
  intros Hok Hnd. unfold graph_of_items.
  rewrite parse_clusterapps_fst, readlines_written.
  - apply parse_record_lines; [|assumption].
    apply Forall_forall. intros item Hi.
    rewrite Forall_forall in Hok. apply Hok in Hi.
    unfold plain in Hi. tauto.
  - apply Forall_forall. intros item Hi.
    rewrite Forall_forall in Hok. apply Hok in Hi.
    unfold plain, unbroken in *. tauto.
Qed.

Lemma written_file_reads_back_witness :
  readlines (written_file sample_items)
  = [lit "cert-manager-1.14.2|" ++ [LF];
     lit "kube-stack|cert-manager, traefik|x" ++ [LF]].
Proof.
  destruct (written_file_reads_back sample_items) as [E _].
  - repeat constructor; vm_compute; intuition discriminate.
  - rewrite E. reflexivity.
Defined.

Lemma written_record_is_parsed_witness :
  map line_fields (readlines (written_file sample_items))
  = [Some (lit "cert-manager-1.14.2", []);
     Some (lit "kube-stack", lit "cert-manager, traefik")].
Proof.
  rewrite (written_record_is_parsed sample_items).
  - reflexivity.
  - repeat constructor; vm_compute; intuition discriminate.
Defined.

Lemma items_become_apps_witness :
  fst (graph_of_items insertion_order sample_items)
  = [(lit "cert-manager-1.14.2", []);
     (lit "kube-stack", [lit "cert-manager"; lit "traefik"])].
Proof.
  rewrite (items_become_apps insertion_order sample_items).
  - reflexivity.
  - repeat constructor; vm_compute; intuition discriminate.
  - vm_compute. repeat constructor; simpl; intuition discriminate.
Defined.

Section ReferenceTokens.

Lemma split_no_sep (sep : char) (s p : pystr) :
  In p (split sep s) -> ~ In sep p.
Proof.
  revert p. induction s as [|c s IH]; simpl; intros p.
  - intros [<-|[]]. easy.
  - destruct (N.eqb_spec c sep) as [->|Hne].
    + intros [<-|H]; [easy|now apply IH].
    + destruct (split sep s) as [|f fs] eqn:E.
      * intros [<-|[]]. simpl. intuition.
      * intros [<-|H].
        -- simpl. intros [E'|H']; [congruence|].
           now apply (IH f (or_introl eq_refl)).
        -- apply IH. now right.
Qed.

Lemma strip_twice (s : pystr) : strip (strip s) = strip s.
Proof.
  unfold strip. rewrite (lstrip_rstrip (lstrip s)), lstrip_twice.
  apply rstrip_twice.
Qed.

Lemma first_match_exists (keys : list pystr) (dep : pystr) :
  (exists k, In k keys /\ matches k dep = true) ->
  exists parent, first_match keys dep parent.
Proof.
  induction keys as [|k keys IH]; intros (x & Hx & Hm); [destruct Hx|].
  destruct (matches k dep) eqn:Ek.
  - exists k. now apply first_match_here.
  - destruct IH as [parent Hp].
    + destruct Hx as [->|Hx]; [congruence|]. now exists x.
    + exists parent. now apply first_match_later.
Qed.

End ReferenceTokens.

(** X14.  The references read from a dependency text are clean tokens: none
    is empty, none begins or ends with white space, none holds a comma. *)
Theorem references_are_clean (deps_str dep : pystr) :
  In dep (references deps_str) ->
  dep <> [] /\ strip dep = dep /\ ~ In COMMA dep.
Proof.
  unfold references, split_deps.
  destruct (truthy deps_str && negb (str_eqb deps_str (lit "N/A")));
    [|intros []].
  rewrite in_map_iff. intros (d & <- & Hd). apply filter_In in Hd.
  destruct Hd as [Hd Ht]. split; [|split].
  - now destruct (strip d).
  - apply strip_twice.
  - intros H. apply strip_incl in H. now apply (split_no_sep COMMA _ _ Hd).
Qed.

Lemma references_are_clean_witness :
  lit "b-1.0.0" <> [] /\ strip (lit "b-1.0.0") = lit "b-1.0.0"
  /\ ~ In COMMA (lit "b-1.0.0").
Proof.
  apply (references_are_clean (lit "a , ,b-1.0.0 ,")).
  vm_compute. tauto.
Defined.

(** X15.  A reference that names a registered identifier, by its name or by
    its base name, is never dropped: the record's identifier becomes a child
    of some identifier that the reference matches.  *)
Theorem matched_reference_forms_edge (O : set_order)
    (before : list pystr) (line : pystr) (after : list pystr)
    (child deps_str dep known : pystr) :
  line_fields line = Some (child, deps_str) ->
  In dep (references deps_str) ->
  In known (registered before line) ->
  matches known dep = true ->
  exists parent,
    matches parent dep = true /\
    In parent (registered before line) /\
    In child
       (dict_get_or (snd (parse_clusterapps O (before ++ line :: after)))
                    parent []).
Proof.
  intros Hf Hd Hk Hm.
  destruct (first_match_exists (registered before line) dep) as [parent Hp];
    [now exists known|].
  exists parent. pose proof Hp as (earlier & later & E & _ & Hpm).
  split; [assumption|]. split.
  - rewrite E. apply in_or_app. right. now left.
  - rewrite parse_clusterapps_snd, sort_values_get, sorted_In.
    apply parse_lines_children.
    now exists before, line, after, deps_str, dep.
Qed.

Lemma matched_reference_forms_edge_witness :
  exists parent,
    matches parent (lit "foo") = true /\
    In parent (registered [lit "foo-1.0.0|"; lit "foo|"] (lit "x|bar, foo")) /\
    In (lit "x")
       (dict_get_or
          (snd (parse_clusterapps insertion_order
                  ([lit "foo-1.0.0|"; lit "foo|"]
                     ++ lit "x|bar, foo" :: [lit "y|x"])))
          parent []).
Proof.
  apply (matched_reference_forms_edge insertion_order
           [lit "foo-1.0.0|"; lit "foo|"] (lit "x|bar, foo") [lit "y|x"]
           (lit "x") (lit "bar, foo") (lit "foo") (lit "foo")).
  - reflexivity.
  - vm_compute. tauto.
  - vm_compute. tauto.
  - reflexivity.
Defined.

(** * The assembled text *)

Section Layout.

Variables apps dependents : dict (list pystr).

Lemma root_chain_lines (st st' : assembly) (root_idx : nat) (root : pystr) :
  root_chain apps dependents st root_idx root = Some st' ->
  exists chain,
    chains st' = chains st ++ [chain] /\
    lines st' = lines st ++ section_lines apps dependents root_idx root chain.
Proof.
  unfold root_chain, section_lines.
  destruct (bfs_loop _ _ _ _ _) as [[chain processed']|]; [|discriminate].
  intros [= <-]. exists chain. simpl. split; [reflexivity|].
  destruct (0 <? root_idx); simpl; rewrite <- !app_assoc; reflexivity.
Qed.

Lemma root_chains_lines (roots : list pystr) :
  forall st st' root_idx,
    root_chains apps dependents st root_idx roots = Some st' ->
    exists chains',
      chains st' = chains st ++ chains' /\
      lines st'
      = lines st ++ sections_from apps dependents root_idx roots chains'.
Proof.
  induction roots as [|root roots IH]; intros st st' root_idx; simpl.
  - intros [= <-]. exists []. now rewrite !app_nil_r.
  - destruct (root_chain apps dependents st root_idx root) as [st1|] eqn:E1;
      [|discriminate].
    intros E. apply IH in E. destruct E as (chains' & Ec & El).
    apply root_chain_lines in E1. destruct E1 as (chain & Ec1 & El1).
    exists (chain :: chains'). split.
    + rewrite Ec, Ec1, <- app_assoc. reflexivity.
    + rewrite El, El1, <- app_assoc. reflexivity.
Qed.

Lemma truthy_perm {A} (l l' : list A) :
  Permutation l l' -> truthy l = truthy l'.
Proof.
  intros H. apply Permutation_length in H.
  destruct l, l'; simpl in *; congruence.
Qed.

End Layout.

(** X16.  The text is the title, then one section per root in the order of
    the roots, each with its heading and the blocks of its chain in chain
    order, then the section of the orphans if there is one, then the closing
    fence and a final line feed. *)
Theorem diagram_layout (O : set_order) (apps dependents : dict (list pystr)) :
  exists chains remainder,
    chain_traversal O apps dependents = Some (chains, remainder) /\
    create_block_diagram O apps dependents
    = Some (join [LF]
              (title
                 ++ sections_from apps dependents 0 (find_roots apps) chains
                 ++ orphan_section apps dependents remainder
                 ++ [lit "```"; []])).
Proof.
  unfold chain_traversal, create_block_diagram.
  destruct (root_sections_returns apps dependents) as [st E]. rewrite E.
  unfold root_sections in E. apply root_chains_lines in E.
  destruct E as (chains' & Ec & El). simpl in Ec.
  change (lines st
          = title ++ sections_from apps dependents 0 (find_roots apps) chains')
    in El.
  subst chains'.
  exists (chains st), (orphans O apps (processed st)).
  split; [reflexivity|]. do 2 f_equal.
  assert (Et : truthy (remaining apps (processed st))
               = truthy (orphans O apps (processed st))).
  { apply truthy_perm. unfold orphans. symmetry.
    rewrite sorted_perm. apply set_iter_perm. }
  rewrite Et, El. unfold orphan_section.
  destruct (orphans O apps (processed st)) as [|o os]; simpl truthy; cbv iota.
  - now rewrite <- !app_assoc.
  - now rewrite <- !app_assoc.
Qed.

(** Versions in the digits of other scripts, and what is not a digit. *)
Example base_name_other_digits :
  get_base_name (lit "app-1.٢.３-x") = lit "app" /\
  get_base_name (lit "app-1.2.²") = lit "app-1.2.²" /\
  matches (lit "app-١.٢.٣") (lit "app") = true.
Proof. repeat split; reflexivity. Qed.
